(** * The dependency-license scanner of pyutil, embedded and verified

    Source: [BuildSystem/common/license_scanner.py].

    The scanner is a sequential batch job: every scanner produces license
    entries (Python dicts), the merge step folds them into one mapping keyed
    by module name, and the report is written once.  The embedding follows
    the code method by method and keeps its names.

    Modelling conventions.
    - A Python [str] is a Rocq [string] holding its UTF-8 bytes; the order
      [<] of Python on [str] (by code point) is then the bytewise
      lexicographic order [String.ltb].
    - A Python exception is a value of [exn]; a call that may raise returns
      a [result].
    - A license entry is a [dict] from field names to [pyval]; the values the
      report schema allows are strings, booleans, [None] and lists of
      strings.
    - A Python [dict] whose iteration order the code observes
      ([licenses.values()]) is an insertion-ordered association list.
    - The entries a scanner hands to the merge are fresh objects (parsed from
      JSON or built by the scanner) and no object is stored under two keys,
      so an entry is modelled by its value.
    - The outside world (directory listings, the classifier tool, the
      package-metadata command, the HTTP service, the URL parser of the
      standard library) enters as explicit oracles. *)

From Stdlib Require Import ZArith String Ascii List Lia Bool.
From Stdlib Require Import Sorting.Sorted Sorting.Permutation.
From Stdlib Require Import Structures.OrderedTypeEx.
From Equations Require Import Equations.
From stdpp Require Import base option list gmap strings sorting.

Open Scope string_scope.
Open Scope list_scope.

(** ** Python values, exceptions and string primitives *)

Module Py.

Inductive exn : Type :=
| AttributeError
| KeyError
| TypeError
| AssertionError
| RuntimeError
| RecursionError
| OSError
| FileNotFoundError
| ValueError
| CalledProcessError.

Inductive result (A : Type) : Type :=
| Return (a : A)
| Raise (e : exn).
Arguments Return {A} a.
Arguments Raise {A} e.

#[export] Instance result_ret : MRet result := fun A a => Return a.
#[export] Instance result_bind : MBind result := fun A B f r =>
  match r with
  | Return a => f a
  | Raise e => Raise e
  end.

Definition returns {A} (r : result A) : Prop := ∃ a, r = Return a.
Definition raises {A} (r : result A) : Prop := ∃ e, r = Raise e.

(** JSON values of the report schema. *)
Inductive pyval : Type :=
| PNone
| PBool (b : bool)
| PStr (s : string)
| PList (l : list string).

#[export] Instance pyval_eq_dec : EqDecision pyval.
Proof. solve_decision. Defined.

(** [bool(v)] *)
Definition truthy (v : pyval) : bool :=
  match v with
  | PNone => false
  | PBool b => b
  | PStr s => negb (String.eqb s EmptyString)
  | PList l => match l with [] => false | _ => true end
  end.

(** A dict with string keys whose order is not observed. *)
Abbreviation dict := (gmap string pyval).

(** [d[k]] *)
Definition getitem (d : dict) (k : string) : result pyval :=
  match d !! k with
  | Some v => Return v
  | None => Raise KeyError
  end.

(** [d.get(k, None)] *)
Definition get_or_none (d : dict) (k : string) : pyval :=
  default PNone (d !! k).

(** [s.startswith(p)] *)
Definition startswith (s p : string) : bool := String.prefix p s.

(** [s.endswith(p)] *)
Definition endswith (s p : string) : bool :=
  (String.length p <=? String.length s)%nat &&
  String.eqb (substring (String.length s - String.length p) (String.length p) s) p.

(** [s[n:]] for [n >= 0] *)
Definition drop_front (n : nat) (s : string) : string :=
  substring n (String.length s - n) s.

(** [s[:-n]] for [n > 0] *)
Definition drop_back (n : nat) (s : string) : string :=
  substring 0 (String.length s - n) s.

(** [sub in s] on two strings *)
Definition contains (s sub : string) : bool :=
  match String.index 0 sub s with
  | Some _ => true
  | None => false
  end.

(** [s.split(c)] for a one-character separator: never empty. *)
Fixpoint split (c : ascii) (s : string) : list string :=
  match s with
  | EmptyString => [EmptyString]
  | String a s' =>
      if Ascii.eqb a c then EmptyString :: split c s'
      else match split c s' with
           | [] => [String a EmptyString]
           | w :: ws => String a w :: ws
           end
  end.

(** [s.split(c, 1)]: at most one split, at the first separator. *)
Fixpoint split1 (c : ascii) (s : string) : list string :=
  match s with
  | EmptyString => [EmptyString]
  | String a s' =>
      if Ascii.eqb a c then [EmptyString; s']
      else match split1 c s' with
           | [] => [String a EmptyString]
           | w :: ws => String a w :: ws
           end
  end.

(** [c in s] for a character *)
Fixpoint has_char (c : ascii) (s : string) : bool :=
  match s with
  | EmptyString => false
  | String a s' => Ascii.eqb a c || has_char c s'
  end.

(** [s.upper()] on ASCII letters; other bytes are kept. *)
Definition upper_ascii (a : ascii) : ascii :=
  let n := nat_of_ascii a in
  if ((97 <=? n) && (n <=? 122))%nat then ascii_of_nat (n - 32) else a.

Fixpoint upper (s : string) : string :=
  match s with
  | EmptyString => EmptyString
  | String a s' => String (upper_ascii a) (upper s')
  end.

(** Insertion-ordered dict: [d[k] = v] keeps the position of an existing
    key and appends a new one. *)
Section Odict.
Context {V : Type}.

Definition odict := list (string * V).

Fixpoint oget (d : odict) (k : string) : option V :=
  match d with
  | [] => None
  | (k', v) :: d' => if decide (k = k') then Some v else oget d' k
  end.

Fixpoint oset (d : odict) (k : string) (v : V) : odict :=
  match d with
  | [] => [(k, v)]
  | (k', v') :: d' =>
      if decide (k = k') then (k, v) :: d' else (k', v') :: oset d' k v
  end.

Definition omem (d : odict) (k : string) : bool :=
  match oget d k with Some _ => true | None => false end.

Definition ovalues (d : odict) : list V := map snd d.
Definition okeys (d : odict) : list string := map fst d.

End Odict.
Arguments odict V : clear implicits.

End Py.

(** ** The [x-usedBy] list: [bisect.insort] and [Scanner.ensure_used_by] *)

Module UsedBy.
Import Py.

(** [bisect.bisect_right(a, x, lo, hi)]:
    [while lo < hi: mid = (lo+hi)//2; if x < a[mid]: hi = mid else: lo = mid+1].
    The index [mid] is below [hi], hence inside the list whenever
    [hi <= len(a)], which is how [insort] calls it. *)
Equations? bisect_right (a : list string) (x : string) (lo hi : nat) : nat
  by wf (hi - lo) lt :=
  bisect_right a x lo hi with decide (lo < hi) => {
    | left _ with a !! ((lo + hi) / 2) => {
        | Some y with String.ltb x y => {
            | true => bisect_right a x lo ((lo + hi) / 2)
            | false => bisect_right a x (S ((lo + hi) / 2)) hi }
        | None => lo }
    | right _ => lo }.
Proof.
  all: assert ((lo + hi) / 2 < hi)%nat by (apply Nat.Div0.div_lt_upper_bound; lia).
  all: assert (lo <= (lo + hi) / 2)%nat by (apply Nat.div_le_lower_bound; lia).
  all: lia.
Qed.

(** [bisect.insort(a, x)]: [a.insert(bisect_right(a, x), x)]. *)
Definition insort (a : list string) (x : string) : list string :=
  let lo := bisect_right a x 0 (length a) in
  take lo a ++ x :: drop lo a.

(** [Scanner.ensure_used_by(modulename, lic)].  When [x-usedBy] holds a
    string, [in] is the substring test and [insort] fails on the missing
    [insert] method; on [None] or a boolean [in] itself fails. *)
Definition ensure_used_by (modulename : string) (lic : dict) : result dict :=
  match lic !! "x-usedBy" with
  | Some (PList l) =>
      if decide (modulename ∈ l) then Return lic
      else Return (<["x-usedBy" := PList (insort l modulename)]> lic)
  | Some (PStr s) =>
      if contains s modulename then Return lic else Raise AttributeError
  | Some _ => Raise TypeError
  | None => Return (<["x-usedBy" := PList [modulename]]> lic)
  end.

(** The property the report promises of a used-by list. *)
Definition str_le (a b : string) : Prop := String.leb a b = true.

Definition sorted_dedup (l : list string) : Prop :=
  Sorted str_le l ∧ NoDup l.

Definition used_by_ok (lic : dict) : Prop :=
  ∀ v, lic !! "x-usedBy" = Some v → ∃ l, v = PList l ∧ sorted_dedup l.

(** The same as a test: each name is strictly below the next. *)
Fixpoint increasing (l : list string) : bool :=
  match l with
  | x :: l' =>
      match l' with
      | y :: _ => String.ltb x y && increasing l'
      | [] => true
      end
  | [] => true
  end.

Definition used_by_okb (lic : dict) : bool :=
  match lic !! "x-usedBy" with
  | None => true
  | Some (PList l) => increasing l
  | Some _ => false
  end.

End UsedBy.

(** ** The SPDX lookup table: class [_SPDX] *)

Module SPDX.
Import Py.

(** One element of the [licenses] array of the bundled database. *)
Record entry : Type := Entry {
  licenseId : string;
  name : string;
  isOsiApproved : bool
}.

(** The two dictionaries built by [_SPDX.__init__]. *)
Record t : Type := Table {
  _entries : gmap string entry;
  _name_map : gmap string string
}.

Definition empty : t := Table ∅ ∅.

(** [entries[lic['licenseId']] = lic; name_map[lic['name']] = lic['licenseId']] *)
Definition add (db : t) (lic : entry) : t :=
  Table (<[licenseId lic := lic]> (_entries db))
        (<[name lic := licenseId lic]> (_name_map db)).

(** [_SPDX.__init__] on the parsed [licenses] array. *)
Definition load (licenses : list entry) : t := foldl add empty licenses.

(** The class attribute [_ninka_fallbacks]. *)
Definition _ninka_fallbacks : gmap string string :=
  <["spdxBSD3" := "BSD-3-Clause"]> (<["Apache-2" := "Apache-2.0"]> ∅).

(** [d.get(k, None)] on a dict keyed by strings, for an arbitrary Python
    key: a list is unhashable, any other non-string is simply absent. *)
Definition dict_get {V} (d : gmap string V) (k : pyval) : result (option V) :=
  match k with
  | PStr s => Return (d !! s)
  | PList _ => Raise TypeError
  | PNone | PBool _ => Return None
  end.

(** [get_entry] *)
Definition get_entry (db : t) (licenseid : pyval) : result (option entry) :=
  dict_get (_entries db) licenseid.

(** [_try_name_search]; [if licenseid:] is false for the empty id. *)
Definition _try_name_search (db : t) (nm : pyval) : result (option entry) :=
  licenseid ← dict_get (_name_map db) nm;
  match licenseid with
  | Some id => if truthy (PStr id) then get_entry db (PStr id) else Return None
  | None => Return None
  end.

(** [_try_ninka_overrides]; [name.startswith] exists on strings only. *)
Definition _try_ninka_overrides (db : t) (nm : pyval) : result (option entry) :=
  licenseid ← dict_get _ninka_fallbacks nm;
  match licenseid with
  | Some id => get_entry db (PStr id)
  | None =>
      match nm with
      | PStr s =>
          if startswith s "spdx" then get_entry db (PStr (drop_front 4 s))
          else Return None
      | _ => Raise AttributeError
      end
  end.

(** [search]; an entry is a non-empty dict, hence true. *)
Definition search (db : t) (srch : pyval) : result (option entry) :=
  entry ← get_entry db srch;
  match entry with
  | Some e => Return (Some e)
  | None =>
      entry ← _try_name_search db srch;
      match entry with
      | Some e => Return (Some e)
      | None => _try_ninka_overrides db srch
      end
  end.

(** [set_into_license] *)
Definition set_into_license (e : entry) (lic : dict) : dict :=
  <["x-isOsiApproved" := PBool (isOsiApproved e)]>
    (<["x-spdxId" := PStr (licenseId e)]>
       (<["moduleLicense" := PStr (name e)]> lic)).




Definition by_stripped_prefix (db : t) (s : string) : option entry :=
  if startswith s "spdx" then _entries db !! drop_front 4 s else None.



End SPDX.

(** ** The remote lookup adapter: [_get] and class [_GitHubAPI] *)

Module GitHub.
Import Py.

(** The [license] member of a repository object: missing, JSON [null], or
    an object whose [spdx_id] is a string or missing/[null]. *)
Inductive license_field : Type :=
| LicenseAbsent
| LicenseNull
| LicenseObject (spdx_id : option string).

(** A repository object of the listing; [repo_name] is [None] when the
    [name] member is missing. *)
Record project : Type := Project {
  repo_name : option string;
  repo_license : license_field
}.

(** What [resp.json()] can hold: the rate-limit object with its
    [rate.remaining] number, a list of repository objects, or a non-empty
    JSON object of another shape. *)
Inductive body : Type :=
| RateBody (remaining : Z)
| ReposBody (projects : list project)
| OtherBody.

(** An HTTP response as [_get] inspects it; [content_type] is empty when
    the header is missing, [json] is what [resp.json()] does. *)
Record response : Type := Response {
  status_code : Z;
  content_type : string;
  json : result body
}.

(** The environment: [urllib.parse.urlparse], reduced to the [netloc] and
    [path] it returns, and [requests.get], which may answer differently
    each time (it sees the URLs requested so far) and may raise. *)
Record net : Type := Net {
  urlparse : string → string * string;
  requests_get : list string → string → result response
}.

(** The adapter's fields, and the log of URLs requested so far. *)
Record state : Type := State {
  _cached : gmap string body;
  _remaining_calls : Z;
  requested : list string
}.

(** [_GitHubAPI.__init__] *)
Definition init : state := State ∅ (-1) [].

Definition set_remaining (st : state) (n : Z) : state :=
  State (_cached st) n (requested st).

Definition set_cached (st : state) (org : string) (b : body) : state :=
  State (<[org := b]> (_cached st)) (_remaining_calls st) (requested st).

Definition log_request (st : state) (url : string) : state :=
  State (_cached st) (_remaining_calls st) (requested st ++ [url]).

(** [_get(url)] *)
Definition _get (n : net) (url : string) (st : state) : result body * state :=
  if negb (truthy (PStr url)) then (Raise AssertionError, st)
  else
    let st' := log_request st url in
    match requests_get n (requested st) url with
    | Raise e => (Raise e, st')
    | Return resp =>
        if negb ((200 <=? status_code resp)%Z && (status_code resp <? 300)%Z)
        then (Raise RuntimeError, st')
        else if negb (startswith (content_type resp) "application/json")
        then (Raise RuntimeError, st')
        else (json resp, st')
    end.

(** [result['rate']['remaining']] *)
Definition rate_remaining (b : body) : result Z :=
  match b with
  | RateBody r => Return r
  | ReposBody _ => Raise TypeError
  | OtherBody => Raise KeyError
  end.

(** [_can_call_github]: every exception is caught and answered [False]. *)
Definition _can_call_github (n : net) (st : state) : bool * state :=
  let fetched :=
    if (_remaining_calls st =? -1)%Z then
      match _get n "https://api.github.com/rate_limit" st with
      | (Return b, st1) =>
          match rate_remaining b with
          | Return r => (Return tt, set_remaining st1 r)
          | Raise e => (Raise e, st1)
          end
      | (Raise e, st1) => (Raise e, st1)
      end
    else (Return tt, st) in
  match fetched with
  | (Return _, st1) =>
      if (_remaining_calls st1 >? 0)%Z
      then (true, set_remaining st1 (_remaining_calls st1 - 1))
      else (false, st1)
  | (Raise _, st1) => (false, st1)
  end.

(** [_try_api(key, organization)] *)
Definition _try_api (n : net) (key organization : string) (st : state)
  : option body * state :=
  match _can_call_github n st with
  | (true, st1) =>
      match _get n ("https://api.github.com/" ++ key ++ "/" ++ organization ++ "/repos") st1 with
      | (Return b, st2) => (Some b, st2)
      | (Raise _, st2) => (None, st2)
      end
  | (false, st1) => (None, st1)
  end.

(** The loop of [_parse_url] over [parsed_url.path.split('/')]. *)
Fixpoint parse_parts (parts : list string) (organization project : option string)
  : option string * option string :=
  match parts with
  | [] => (organization, project)
  | part :: rest =>
      if String.eqb part EmptyString then parse_parts rest organization project
      else match organization with
           | None => parse_parts rest (Some part) project
           | Some _ =>
               match project with
               | None => (organization, Some part)
               | Some _ => parse_parts rest organization project
               end
           end
  end.

(** [_parse_url(url)]: host, organization, project.  [urlparse] rejects
    an argument that is neither [str] nor bytes. *)
Definition _parse_url (n : net) (url : pyval)
  : result (option string * option string * option string) :=
  if truthy url then
    match url with
    | PStr u =>
        let '(netloc, path) := urlparse n u in
        let '(organization, project) := parse_parts (split "/" path) None None in
        Return (Some netloc, organization, project)
    | _ => Raise AttributeError
    end
  else Return (None, None, None).

(** [_license_from_entry(projects, project_name)].  Iterating a JSON
    object yields its keys, which have no [get]. *)
Fixpoint license_from_projects (projects : list project) (project_name : string)
  : result (option string) :=
  match projects with
  | [] => Return None
  | p :: rest =>
      if String.eqb (default EmptyString (repo_name p)) project_name then
        match repo_license p with
        | LicenseAbsent => Return None
        | LicenseNull => Raise AttributeError
        | LicenseObject lic_name => Return lic_name
        end
      else license_from_projects rest project_name
  end.

Definition _license_from_entry (projects : body) (project_name : string)
  : result (option string) :=
  match projects with
  | ReposBody l => license_from_projects l project_name
  | RateBody _ | OtherBody => Raise AttributeError
  end.

(** [lookup(url)] *)
Definition lookup (n : net) (url : pyval) (st : state)
  : result (option string) * state :=
  match _parse_url n url with
  | Raise e => (Raise e, st)
  | Return (host, organization, project) =>
      match project with
      | None => (Raise AttributeError, st)
      | Some project =>
          let project :=
            if endswith project ".git" then drop_back 4 project else project in
          let organization := default EmptyString organization in
          match _cached st !! organization with
          | Some projects => (_license_from_entry projects project, st)
          | None =>
              if decide (host = Some "github.com") then
                let '(projects, st1) := _try_api n "orgs" organization st in
                let '(projects, st2) :=
                  match projects with
                  | None => _try_api n "users" organization st1
                  | Some b => (Some b, st1)
                  end in
                match projects with
                | Some b =>
                    (_license_from_entry b project, set_cached st2 organization b)
                | None => (Return None, st2)
                end
              else (Return None, st)
          end
      end
  end.

(** A run of lookups on one adapter, each call's outcome recorded. *)
Fixpoint lookups (n : net) (urls : list pyval) (st : state)
  : list (result (option string)) * state :=
  match urls with
  | [] => ([], st)
  | url :: rest =>
      let '(r, st1) := lookup n url st in
      let '(rs, st2) := lookups n rest st1 in
      (r :: rs, st2)
  end.

(** URLs of the plain shape [scheme://host/path], on which
    [urllib.parse.urlparse] returns the host as [netloc] and the rest,
    from the first slash on, as [path]. *)
Fixpoint until_slash (s : string) : string * string :=
  match s with
  | EmptyString => (EmptyString, EmptyString)
  | String a s' =>
      if Ascii.eqb a "/" then (EmptyString, s)
      else let '(h, p) := until_slash s' in (String a h, p)
  end.

Fixpoint after_scheme (s : string) : option string :=
  match s with
  | EmptyString => None
  | String a s' =>
      if startswith s "://" then Some (drop_front 3 s) else after_scheme s'
  end.

Definition urlparse_plain (url : string) : string * string :=
  match after_scheme url with
  | Some rest => until_slash rest
  | None => (EmptyString, url)
  end.

End GitHub.

(** ** The scanner base class: [Scanner] and the merge step *)

Module Scanner.
Import Py.

(** The two shared collaborators, [Scanner.spdx] and [Scanner._github]'s
    network, and the classifier tool: [ninka f] is what
    [_get_run("ninka f | cut -d ';' -f2")] returns or raises. *)
Record env : Type := Env {
  spdx : SPDX.t;
  net : GitHub.net;
  ninka : string → result string
}.

(** The aggregate mapping together with the state of the shared adapter. *)
Abbreviation licenses_t := (odict dict).

Record state : Type := St {
  licenses : licenses_t;
  github : GitHub.state
}.

Definition init : state := St [] GitHub.init.

(** [guess_license_with_ninka(filename)] *)
Definition guess_license_with_ninka (e : env) (filename : string) : result string :=
  licensetype ← ninka e filename;
  entry ← SPDX.search (spdx e) (PStr licensetype);
  match entry with
  | Some en => Return (SPDX.name en)
  | None => Return licensetype
  end.

(** [_should_add_to_used_by(lic)]: ['x-usedBy' not in lic] *)
Definition _should_add_to_used_by (lic : dict) : bool :=
  match lic !! "x-usedBy" with Some _ => false | None => true end.

(** [lic['moduleName']] used as the key of the mapping.  Module names are
    strings; the model rejects any other value. *)
Definition module_name (lic : dict) : result string :=
  match lic !! "moduleName" with
  | Some (PStr s) => Return s
  | Some _ => Raise TypeError
  | None => Raise KeyError
  end.

(** The part of the loop body after [entry = self.spdx.search(...)] found
    nothing: ask the remote adapter, and set the SPDX fields if its answer
    is a known id. *)
Definition resolve_remotely (e : env) (lic : dict) (gh : GitHub.state)
  : result dict * GitHub.state :=
  match GitHub.lookup (net e) (get_or_none lic "moduleUrl") gh with
  | (Raise ex, gh') => (Raise ex, gh')
  | (Return None, gh') => (Return lic, gh')
  | (Return (Some licenseid), gh') =>
      if truthy (PStr licenseid) then
        match SPDX.get_entry (spdx e) (PStr licenseid) with
        | Return (Some en) => (Return (SPDX.set_into_license en lic), gh')
        | Return None => (Return lic, gh')
        | Raise ex => (Raise ex, gh')
        end
      else (Return lic, gh')
  end.

(** The body of the loop of [_adjust_and_add_new_licenses] for one
    incoming entry.  A raised exception leaves the mapping as it is at
    that point. *)
Definition adjust_and_add (e : env) (modulename : string) (lic : dict) (st : state)
  : result unit * state :=
  match module_name lic with
  | Raise ex => (Raise ex, st)
  | Return key =>
      match oget (licenses st) key with
      | Some existing =>
          if _should_add_to_used_by lic then
            match UsedBy.ensure_used_by modulename existing with
            | Return existing' =>
                (Return tt, St (oset (licenses st) key existing') (github st))
            | Raise ex => (Raise ex, st)
            end
          else (Return tt, st)
      | None =>
          let adjusted :=
            if _should_add_to_used_by lic
            then UsedBy.ensure_used_by modulename lic
            else Return lic in
          match adjusted with
          | Raise ex => (Raise ex, st)
          | Return lic1 =>
              match getitem lic1 "moduleLicense" ≫= SPDX.search (spdx e) with
              | Raise ex => (Raise ex, st)
              | Return (Some en) =>
                  (Return tt,
                   St (oset (licenses st) key (SPDX.set_into_license en lic1))
                      (github st))
              | Return None =>
                  match resolve_remotely e lic1 (github st) with
                  | (Raise ex, gh') => (Raise ex, St (licenses st) gh')
                  | (Return lic2, gh') =>
                      (Return tt, St (oset (licenses st) key lic2) gh')
                  end
              end
          end
      end
  end.

(** [_adjust_and_add_new_licenses(modulename, new_licenses, licenses)] *)
Fixpoint _adjust_and_add_new_licenses (e : env) (modulename : string)
    (new_licenses : list dict) (st : state) : result unit * state :=
  match new_licenses with
  | [] => (Return tt, st)
  | lic :: rest =>
      match adjust_and_add e modulename lic st with
      | (Return _, st') => _adjust_and_add_new_licenses e modulename rest st'
      | (Raise ex, st') => (Raise ex, st')
      end
  end.

(** The abstract methods of a scanner, as they answer in the project at
    hand. *)
Record scanner : Type := Scan {
  should_scan : result bool;
  scan : result (list dict)
}.

(** [add_licenses(modulename, licenses)] *)
Definition add_licenses (e : env) (modulename : string) (sc : scanner) (st : state)
  : result unit * state :=
  match should_scan sc with
  | Raise ex => (Raise ex, st)
  | Return false => (Return tt, st)
  | Return true =>
      match scan sc with
      | Raise ex => (Raise ex, st)
      | Return new_licenses =>
          _adjust_and_add_new_licenses e modulename new_licenses st
      end
  end.

(** The loop of [_main] over the scanners. *)
Fixpoint run_scanners (e : env) (modulename : string) (scanners : list scanner)
    (st : state) : result unit * state :=
  match scanners with
  | [] => (Return tt, st)
  | sc :: rest =>
      match add_licenses e modulename sc st with
      | (Return _, st') => run_scanners e modulename rest st'
      | (Raise ex, st') => (Raise ex, st')
      end
  end.

(** The mapping is keyed by the module name of its entries. *)
Definition keyed_by_name (l : licenses_t) : Prop :=
  ∀ k lic, (k, lic) ∈ l → lic !! "moduleName" = Some (PStr k).

End Scanner.

(** ** Scanners over checked-out directories:
       [DirectoryBasedScanner] and [KSSPrereqScanner] *)

Module Dir.
Import Py.

Definition _PREREQS_DIRECTORY : string := ".prereqs/Darwin-x86_64".
Definition _PREREQS_LICENSE_FILE : string := "Dependencies/prereqs-licenses.json".

(** The file system as the scanners read it.  [listdir] raises
    [FileNotFoundError] or another [OSError]; [read_dependencies f] is
    [_read_json_file(f)['dependencies']]; [read_file_contents] is
    [_read_file_contents]; [url_path u] is [urllib.parse.urlparse(u).path]. *)
Record files : Type := Files {
  isdir : string → bool;
  isfile : string → bool;
  listdir : string → result (list string);
  read_dependencies : string → result (list dict);
  read_file_contents : string → result string;
  url_path : string → string
}.

(** ["%s" % x] for a string or [None] *)
Definition fmt (x : option string) : string := default "None" x.

(** The loop of [_get_license_filename]. *)
Definition first_license (entries : list string) : option string :=
  List.find (λ entry, startswith (upper entry) "LICENSE") entries.

(** [_get_license_filename(dirname)] *)
Definition _get_license_filename (fs : files) (dirname : string)
  : result (option string) :=
  match listdir fs dirname with
  | Return entries => Return (first_license entries)
  | Raise FileNotFoundError => Return None
  | Raise ex => Raise ex
  end.

(** A prerequisite descriptor as the two concrete scanners build it: all
    four keys are present, three of them possibly [None]. *)
Record prereq : Type := Prereq {
  name : string;
  version : option string;
  directory : option string;
  url : option string
}.

(** The dict built by [_details_for_prereq]: a copy of the descriptor with
    [otherLicenses] and [license] added. *)
Record details : Type := Details {
  entry : prereq;
  otherLicenses : option (list dict);
  license : string
}.

(** [_get_other_licenses(directory)] *)
Definition _get_other_licenses (fs : files) (directory : option string)
  : result (option (list dict)) :=
  let filename := (fmt directory ++ "/" ++ _PREREQS_LICENSE_FILE)%string in
  if isfile fs filename then
    deps ← read_dependencies fs filename; Return (Some deps)
  else Return None.

(** [_details_for_prereq(entry)] *)
Definition _details_for_prereq (e : Scanner.env) (fs : files) (p : prereq)
  : result details :=
  other ← _get_other_licenses fs (directory p);
  match directory p with
  | Some dir =>
      if isdir fs dir then
        found ← _get_license_filename fs dir;
        let filename := (dir ++ "/" ++ fmt found)%string in
        if isfile fs filename then
          lic ← Scanner.guess_license_with_ninka e filename;
          Return (Details p other lic)
        else Return (Details p other "Unknown")
      else Return (Details p other "Unknown")
  | None => Return (Details p other "Unknown")
  end.

(** [bool(x)] for a string or [None] *)
Definition nonempty (x : option string) : bool :=
  match x with Some s => truthy (PStr s) | None => false end.

(** [_license_from_details(details)] *)
Definition _license_from_details (d : details) : dict :=
  let lic : dict := {["moduleName" := PStr (name (entry d))]} in
  let lic :=
    if nonempty (version (entry d))
    then <["moduleVersion" := PStr (fmt (version (entry d)))]> lic else lic in
  let lic :=
    if nonempty (url (entry d))
    then <["moduleUrl" := PStr (fmt (url (entry d)))]> lic else lic in
  <["moduleLicense" :=
      PStr (if truthy (PStr (license d)) then license d else "Unknown")]> lic.

(** The loop of [_process_prereq] over [other_licenses]. *)
Fixpoint add_other_licenses (prereq_name : string) (other : list dict)
    (licenses : odict dict) : result unit * odict dict :=
  match other with
  | [] => (Return tt, licenses)
  | lic :: rest =>
      match Scanner.module_name lic with
      | Raise ex => (Raise ex, licenses)
      | Return key =>
          match oget licenses key with
          | Some existing =>
              match UsedBy.ensure_used_by prereq_name existing with
              | Return existing' =>
                  add_other_licenses prereq_name rest (oset licenses key existing')
              | Raise ex => (Raise ex, licenses)
              end
          | None => add_other_licenses prereq_name rest (oset licenses key lic)
          end
      end
  end.

(** [_process_prereq(prereq, licenses)] *)
Definition _process_prereq (e : Scanner.env) (fs : files) (p : prereq)
    (licenses : odict dict) : result unit * odict dict :=
  match _details_for_prereq e fs p with
  | Raise ex => (Raise ex, licenses)
  | Return d =>
      let '(r, licenses1) :=
        match otherLicenses d with
        | Some (o :: other) => add_other_licenses (name p) (o :: other) licenses
        | Some [] | None => (Return tt, licenses)
        end in
      match r with
      | Raise ex => (Raise ex, licenses1)
      | Return _ =>
          let lic := _license_from_details d in
          if omem licenses1 (name p) then (Raise AssertionError, licenses1)
          else (Return tt, oset licenses1 (name p) lic)
      end
  end.

(** The loop of [DirectoryBasedScanner.scan]. *)
Fixpoint process_all (e : Scanner.env) (fs : files) (entries : list prereq)
    (lics : odict dict) : result unit * odict dict :=
  match entries with
  | [] => (Return tt, lics)
  | p :: rest =>
      match _process_prereq e fs p lics with
      | (Return _, lics') => process_all e fs rest lics'
      | (Raise ex, lics') => (Raise ex, lics')
      end
  end.

(** [DirectoryBasedScanner.scan], given [get_project_list()]. *)
Definition scan (e : Scanner.env) (fs : files) (project_list : list prereq)
  : result (list dict) :=
  match process_all e fs project_list [] with
  | (Return _, lics) => Return (ovalues lics)
  | (Raise ex, _) => Raise ex
  end.

(** [os.path.basename(p)]: what follows the last slash. *)
Definition basename (p : string) : string := List.last (split "/" p) EmptyString.

(** An element of the manifest [Dependencies/prereqs.json]. *)
Record manifest_entry : Type := Manifest {
  git : option string;
  tarball : option string;
  filename : option string;
  pip : option string
}.

(** [KSSPrereqScanner._parse_tarball_name(filename)] *)
Definition _parse_tarball_name (filename : string)
  : string * option string * string :=
  let name := if endswith filename ".tar.gz" then drop_back 7 filename else filename in
  let directory := (_PREREQS_DIRECTORY ++ "/" ++ name)%string in
  let parts := split1 "-" name in
  let name := List.hd EmptyString parts in
  let version := match parts with [_] => None | _ => List.nth_error parts 1 end in
  (name, version, directory).

(** [KSSPrereqScanner._prereq_for_git_entry(entry)], for [entry['git'] = url] *)
Definition _prereq_for_git_entry (fs : files) (url : string) : result prereq :=
  let name := basename (url_path fs url) in
  let name := if endswith name ".git" then drop_back 4 name else name in
  let directory := (_PREREQS_DIRECTORY ++ "/" ++ name)%string in
  let filename := (directory ++ "/REVISION")%string in
  if isfile fs filename then
    version ← read_file_contents fs filename;
    Return (Prereq name (Some version) (Some directory) (Some url))
  else Return (Prereq name None (Some directory) (Some url)).

(** [KSSPrereqScanner._prereq_for_tarball_entry(entry)], for
    [entry['tarball'] = url] *)
Definition _prereq_for_tarball_entry (fs : files) (url : string)
    (fname : option string) : prereq :=
  let filename := if nonempty fname then fmt fname else basename (url_path fs url) in
  let '(name, version, directory) := _parse_tarball_name filename in
  Prereq name version (Some directory) (Some url).

(** [KSSPrereqScanner.get_project_list] on the parsed manifest. *)
Fixpoint get_project_list (fs : files) (manifest : list manifest_entry)
  : result (list prereq) :=
  match manifest with
  | [] => Return []
  | m :: rest =>
      from_git ←
        match git m with
        | Some url => p ← _prereq_for_git_entry fs url; Return [p]
        | None => Return []
        end;
      let from_tarball :=
        match tarball m with
        | Some url => [_prereq_for_tarball_entry fs url (filename m)]
        | None => []
        end in
      others ← get_project_list fs rest;
      Return (from_git ++ from_tarball ++ others)
  end.

(** [KSSPrereqScanner.scan] on the parsed manifest. *)
Definition kss_scan (e : Scanner.env) (fs : files) (manifest : list manifest_entry)
  : result (list dict) :=
  project_list ← get_project_list fs manifest;
  scan e fs project_list.

(** No entry of the listing is named like a license file. *)
Definition no_license_file (fs : files) (dir : string) : Prop :=
  listdir fs dir = Raise FileNotFoundError ∨
  ∃ entries, listdir fs dir = Return entries ∧
             Forall (λ entry, startswith (upper entry) "LICENSE" = false) entries.

(** The prerequisite has no license file the scanner could find: its
    directory is [None], or is not a directory, or lists no such entry. *)
Definition without_license_file (fs : files) (p : prereq) : Prop :=
  ∀ dir, directory p = Some dir → isdir fs dir = true → no_license_file fs dir.

(** No file of the directory is named [None], the name the path gets
    when no license file is found. *)
Definition no_file_called_None (fs : files) (p : prereq) : Prop :=
  ∀ dir, directory p = Some dir → isfile fs (dir ++ "/" ++ fmt None) = false.

(** The prerequisite's own report, if it has one, can be read. *)
Definition nested_report_readable (fs : files) (p : prereq) : Prop :=
  ∃ other, _get_other_licenses fs (directory p) = Return other.

(** The prerequisite has no report of its own. *)
Definition no_nested_report (fs : files) (p : prereq) : Prop :=
  isfile fs (fmt (directory p) ++ "/" ++ _PREREQS_LICENSE_FILE) = false.

End Dir.

(** ** The installed-interpreter-package scanner: [PipScanner] *)

Module Pip.
Import Py.

(** The dict built by [_get_pip_module_details] from the output of
    [python3 -m pip show]: a key is present only with a non-empty value,
    [Requires] holds the list of names.  [other_keys] tells whether any
    further key is present. *)
Record pip_details : Type := PipDetails {
  Name : option string;
  Version : option string;
  Location : option string;
  Requires : option (list string);
  License : option string;
  Home_page : option string;
  other_keys : bool
}.

(** [bool(details)]: the dict is not empty. *)
Definition has_details (d : pip_details) : bool :=
  bool_decide (is_Some (Name d)) || bool_decide (is_Some (Version d)) ||
  bool_decide (is_Some (Location d)) || bool_decide (is_Some (Requires d)) ||
  bool_decide (is_Some (License d)) || bool_decide (is_Some (Home_page d)) ||
  other_keys d.

(** The package-metadata command, one answer per package name. *)
Record pips : Type := Pips {
  pip_show : string → pip_details
}.

(** [d.get(k, None)] as a Python value *)
Definition opt_str (x : option string) : pyval :=
  match x with Some s => PStr s | None => PNone end.

(** [s.replace('-', '_')] *)
Fixpoint replace_char (a b : ascii) (s : string) : string :=
  match s with
  | EmptyString => EmptyString
  | String c s' => String (if Ascii.eqb c a then b else c) (replace_char a b s')
  end.

(** [_get_pip_license_filename(pipdetails)] *)
Definition _get_pip_license_filename (fs : Dir.files) (d : pip_details)
  : result (option string) :=
  match Location d, Version d, Name d with
  | Some location, Some version, Some pipname =>
      if truthy (PStr location) && truthy (PStr version) && truthy (PStr pipname) then
        let dirname := (location ++ "/" ++ pipname ++ "-" ++ version ++ ".dist-info")%string in
        filename ← Dir._get_license_filename fs dirname;
        if Dir.nonempty filename then
          Return (Some (dirname ++ "/" ++ Dir.fmt filename)%string)
        else
          let dirname :=
            (location ++ "/" ++ replace_char "-" "_" pipname ++ "-" ++ version
               ++ ".dist-info")%string in
          filename ← Dir._get_license_filename fs dirname;
          if Dir.nonempty filename then
            Return (Some (dirname ++ "/" ++ Dir.fmt filename)%string)
          else Return None
      else Return None
  | _, _, _ => Return None
  end.

(** The part of [_add_pip_license_for] that settles [licensetype] once
    the requirements are done. *)
Definition pip_license (e : Scanner.env) (fs : Dir.files) (d : pip_details)
  : result pyval :=
  let licensetype := opt_str (License d) in
  entry ← SPDX.search (Scanner.spdx e) licensetype;
  entry ←
    match entry with
    | Some en => Return (Some en)
    | None =>
        licensefilename ← _get_pip_license_filename fs d;
        match licensefilename with
        | Some f =>
            newlicensetype ← Scanner.guess_license_with_ninka e f;
            SPDX.search (Scanner.spdx e) (PStr newlicensetype)
        | None => Return None
        end
    end;
  match entry with
  | Some en => Return (PStr (SPDX.name en))
  | None => Return licensetype
  end.

(** The mapping under construction, with the log of the keys assigned by
    [licenses[pip] = lic], in the order of the assignments. *)
Record walk : Type := Walk {
  lics : odict dict;
  assigned : list string
}.

(** A loop [for x in xs: f(x)] whose body may raise or run out of fuel. *)
Fixpoint for_each (f : string → walk → option (result unit * walk))
    (xs : list string) (st : walk) : option (result unit * walk) :=
  match xs with
  | [] => Some (Return tt, st)
  | x :: rest =>
      match f x st with
      | Some (Return _, st') => for_each f rest st'
      | other => other
      end
  end.

(** [_add_pip_license_for(pip, used_by, licenses)].  The recursion of the
    source is unbounded; [fuel] bounds its depth and [None] stands for a
    walk that needs more.  The interpreter's own recursion limit is not
    modelled. *)
Fixpoint _add_pip_license_for (fuel : nat) (e : Scanner.env) (fs : Dir.files)
    (w : pips) (pip : string) (used_by : option string) (st : walk)
  : option (result unit * walk) :=
  match fuel with
  | O => None
  | S fuel' =>
      if omem (lics st) pip then Some (Return tt, st)
      else
        let lic : dict := {["moduleName" := PStr pip]} in
        let details := pip_show w pip in
        let built : option (result dict * walk) :=
          if negb (has_details details) then
            Some (Return (<["moduleLicense" := PStr "Unknown"]> lic), st)
          else
            let requires := default [] (Requires details) in
            match for_each (λ req, _add_pip_license_for fuel' e fs w req (Some pip))
                           requires st with
            | None => None
            | Some (Raise ex, st1) => Some (Raise ex, st1)
            | Some (Return _, st1) =>
                match pip_license e fs details with
                | Raise ex => Some (Raise ex, st1)
                | Return licensetype =>
                    Some (Return
                            (<["moduleUrl" := opt_str (Home_page details)]>
                               (<["moduleVersion" := opt_str (Version details)]>
                                  (<["moduleLicense" := licensetype]> lic))),
                          st1)
                end
            end in
        match built with
        | None => None
        | Some (Raise ex, st1) => Some (Raise ex, st1)
        | Some (Return lic, st1) =>
            let with_used_by :=
              match used_by with
              | Some u => if truthy (PStr u) then UsedBy.ensure_used_by u lic
                          else Return lic
              | None => Return lic
              end in
            match with_used_by with
            | Raise ex => Some (Raise ex, st1)
            | Return lic =>
                Some (Return tt, Walk (oset (lics st1) pip lic) (assigned st1 ++ [pip]))
            end
        end
  end.

(** [PipScanner.scan] for [self._pips = pips_list]. *)
Definition scan (fuel : nat) (e : Scanner.env) (fs : Dir.files) (w : pips)
    (pips_list : list string) : option (result (list dict)) :=
  match pips_list with
  | [] => Some (Raise AssertionError)
  | _ =>
      match for_each (λ pip, _add_pip_license_for fuel e fs w pip None)
                     pips_list (Walk [] []) with
      | None => None
      | Some (Raise ex, _) => Some (Raise ex)
      | Some (Return _, st) => Some (Return (ovalues (lics st)))
      end
  end.

(** The names a package requires, as the walk reads them. *)
Definition requires_of (w : pips) (pip : string) : list string :=
  if has_details (pip_show w pip) then default [] (Requires (pip_show w pip)) else [].

(** The [Requires] graph has no cycle: some rank decreases along every
    edge. *)
Definition acyclic (w : pips) : Prop :=
  ∃ rank : string → nat, ∀ p r, r ∈ requires_of w p → rank r < rank p.

(** How a walk may change the mapping: keys are appended, each logged,
    each of a rank below [bound]; the keys stay distinct; an entry
    already present stays as it is. *)
Definition grows (rank : string → nat) (bound : nat) (st st' : walk) : Prop :=
  ∃ new,
    assigned st' = assigned st ++ new ∧
    okeys (lics st') = okeys (lics st) ++ new ∧
    Forall (λ k, rank k < bound) new ∧
    (NoDup (okeys (lics st)) → NoDup (okeys (lics st'))) ∧
    (∀ k v, oget (lics st) k = Some v → oget (lics st') k = Some v).

End Pip.

(** ** Writing the report: [_write_licenses] *)

Module Report.
Import Py.

Definition _PREREQS_LICENSE_FILE : string := "Dependencies/prereqs-licenses.json".

(** A path of the working directory names a regular file with its bytes,
    or a directory.  Access rights are not modelled. *)
Inductive node : Type :=
| File (content : string)
| Directory.

Abbreviation tree := (gmap string node).

(** [os.path.isdir(p)] *)
Definition isdir (fs : tree) (p : string) : bool :=
  match fs !! p with Some Directory => true | _ => false end.

(** [os.mkdir(p)], below the working directory *)
Definition mkdir (fs : tree) (p : string) : result tree :=
  match fs !! p with
  | Some _ => Raise OSError
  | None => Return (<[p := Directory]> fs)
  end.

(** [open(p, 'w')] followed by writing [content] and closing *)
Definition write_file (fs : tree) (p content : string) : result tree :=
  match fs !! p with
  | Some Directory => Raise OSError
  | _ => Return (<[p := File content]> fs)
  end.

(** Python's [sorted] is stable: an element goes before the first one
    whose key is not smaller than its own. *)
Fixpoint insert_by_key {A} (x : string * A) (l : list (string * A)) : list (string * A) :=
  match l with
  | [] => [x]
  | y :: l' =>
      if String.ltb y.1 x.1 then y :: insert_by_key x l' else x :: l
  end.

Definition sort_by_key {A} (l : list (string * A)) : list (string * A) :=
  foldr insert_by_key [] l.

(** [sorted(values, key=lambda x: x['moduleName'])] *)
Definition sorted_by_module_name (values : list dict) : result (list dict) :=
  keyed ← mapM (M := result)
            (λ lic, k ← Scanner.module_name lic; Return (k, lic)) values;
  Return (map snd (sort_by_key keyed)).

(** [_write_licenses(licenses)]; [dump deps] is the text
    [json.dump({'dependencies': deps}, outfile, indent=4, sort_keys=True)]
    writes. *)
Definition _write_licenses (dump : list dict → string) (licenses : odict dict)
    (fs : tree) : result unit * tree :=
  if (0 <? length licenses)%nat then
    match (if isdir fs "Dependencies" then Return fs else mkdir fs "Dependencies") with
    | Raise ex => (Raise ex, fs)
    | Return fs1 =>
        match sorted_by_module_name (ovalues licenses) with
        | Raise ex => (Raise ex, fs1)
        | Return deps =>
            match write_file fs1 _PREREQS_LICENSE_FILE (dump deps) with
            | Raise ex => (Raise ex, fs1)
            | Return fs2 => (Return tt, fs2)
            end
        end
    end
  else (Return tt, fs).

(** The order of the sort, on entries paired with their keys. *)
Definition key_le {A} (a b : string * A) : Prop := UsedBy.str_le a.1 b.1.

(** The module names of a list of entries are in ascending order. *)
Definition sorted_by_name (deps : list dict) : Prop :=
  ∃ names, Forall2 (λ lic k, lic !! "moduleName" = Some (PStr k)) deps names ∧
           Sorted UsedBy.str_le names.

End Report.

(** ** Concrete projects used to exercise the model *)

Module Sample.
Import Py.

Definition mit : SPDX.entry := SPDX.Entry "MIT" "MIT License" true.
Definition bsd3 : SPDX.entry :=
  SPDX.Entry "BSD-3-Clause" "BSD 3-Clause New or Revised License" true.

Definition db : SPDX.t := SPDX.load [mit; bsd3].

(** A machine without network access and without the classifier tool. *)
Definition offline : GitHub.net :=
  GitHub.Net GitHub.urlparse_plain (λ _ _, Raise OSError).

Definition env : Scanner.env :=
  Scanner.Env db offline (λ _, Raise CalledProcessError).

(** A hand-edited entry of a previous report whose used-by list is
    neither sorted nor free of duplicates. *)
Definition zlib_unsorted : dict :=
  <["moduleName" := PStr "zlib"]>
    (<["moduleLicense" := PStr "MIT"]>
       (<["x-manuallyEdited" := PBool true]>
          (<["x-usedBy" := PList ["b"; "a"; "a"]]> ∅))).

Definition zlib : dict :=
  <["moduleName" := PStr "zlib"]>
    (<["moduleLicense" := PStr "MIT"]>
       (<["x-manuallyEdited" := PBool true]>
          (<["x-usedBy" := PList ["kssio"]]> ∅))).

(** What a scanner reports for the same module, without used-by list. *)
Definition zlib_scanned : dict :=
  <["moduleName" := PStr "zlib"]>
    (<["moduleLicense" := PStr "Unknown"]>
       (<["moduleVersion" := PStr "1.2.11"]> ∅)).

Definition manual_unsorted : Scanner.scanner :=
  Scanner.Scan (Return true) (Return [zlib_unsorted]).

Definition manual : Scanner.scanner :=
  Scanner.Scan (Return true) (Return [zlib]).

Definition rescanned : Scanner.scanner :=
  Scanner.Scan (Return true) (Return [zlib_scanned]).

(** A service that grants one call and lists one repository of the
    organization [kss]. *)
Definition one_call : GitHub.net :=
  GitHub.Net GitHub.urlparse_plain
    (λ _ url,
       if String.eqb url "https://api.github.com/rate_limit" then
         Return (GitHub.Response 200 "application/json; charset=utf-8"
                   (Return (GitHub.RateBody 1)))
       else if String.eqb url "https://api.github.com/orgs/kss/repos" then
         Return (GitHub.Response 200 "application/json; charset=utf-8"
                   (Return (GitHub.ReposBody
                              [GitHub.Project (Some "pyutil")
                                 (GitHub.LicenseObject (Some "MIT"))])))
       else Raise OSError).

(** An adapter whose budget is used up and whose cache is empty. *)
Definition exhausted : GitHub.state := GitHub.State ∅ 0 [].


(** A working directory that holds the report of an earlier run. *)
Definition previous_run : Report.tree :=
  <["Dependencies" := Report.Directory]>
    (<[Report._PREREQS_LICENSE_FILE := Report.File "{ old report }"]> ∅).

(** A stand-in for [json.dump]: the module names, one per line. *)
Definition dump_names (deps : list dict) : string :=
  String.concat "
" (map (λ lic, match lic !! "moduleName" with
               | Some (PStr s) => s
               | _ => "?"
               end) deps).

(** The mapping after the hand-edited entries went in. *)
Definition aggregated : Scanner.licenses_t :=
  Scanner.licenses (Scanner.run_scanners env "app" [manual] Scanner.init).2.

(** Checkouts.  [kssutil] is checked out and holds a readme and a file
    called [None]; nothing else exists. *)
Definition kssutil_dir : string := ".prereqs/Darwin-x86_64/kssutil".

Definition checkout_with_None : Dir.files :=
  Dir.Files
    (λ d, String.eqb d kssutil_dir)
    (λ f, String.eqb f (kssutil_dir ++ "/None"))
    (λ d, if String.eqb d kssutil_dir then Return ["None"; "README.md"]
          else Raise FileNotFoundError)
    (λ _, Raise ValueError)
    (λ _, Raise FileNotFoundError)
    (λ u, (GitHub.urlparse_plain u).2).

(** [kssutil] is checked out without license file, and its own report is
    not valid JSON. *)
Definition checkout_with_broken_report : Dir.files :=
  Dir.Files
    (λ d, String.eqb d kssutil_dir)
    (λ f, String.eqb f (kssutil_dir ++ "/" ++ Dir._PREREQS_LICENSE_FILE))
    (λ d, if String.eqb d kssutil_dir then Return ["README.md"]
          else Raise FileNotFoundError)
    (λ _, Raise ValueError)
    (λ _, Raise FileNotFoundError)
    (λ u, (GitHub.urlparse_plain u).2).

(** [kssutil] is checked out with a readme and sources only; the tarball
    was never unpacked. *)
Definition checkout_plain : Dir.files :=
  Dir.Files
    (λ d, String.eqb d kssutil_dir)
    (λ _, false)
    (λ d, if String.eqb d kssutil_dir then Return ["README.md"; "Sources"]
          else Raise FileNotFoundError)
    (λ _, Raise ValueError)
    (λ _, Raise FileNotFoundError)
    (λ u, (GitHub.urlparse_plain u).2).

Definition kssutil : Dir.prereq :=
  Dir.Prereq "kssutil" None (Some kssutil_dir)
    (Some "https://github.com/kss/kssutil.git").

(** The classifier is installed and answers [GPLv3] on any file. *)
Definition env_with_ninka : Scanner.env :=
  Scanner.Env db offline (λ _, Return "GPLv3").

(** A manifest with one git-sourced and one tarball-sourced entry. *)
Definition manifest : list Dir.manifest_entry :=
  [Dir.Manifest (Some "https://github.com/kss/kssutil.git") None None None;
   Dir.Manifest None (Some "https://example.com/dl/foo-1.2.3.tar.gz") None None].

(** Installed packages: [kssbuild] requires [requests] and [urllib3],
    [requests] requires [urllib3] as well; any other name is unknown to
    the package manager, which prints nothing for it. *)
Definition installed : Pip.pips :=
  Pip.Pips (λ pip,
    if String.eqb pip "kssbuild" then
      Pip.PipDetails (Some "kssbuild") (Some "1.0") None
        (Some ["requests"; "urllib3"]) (Some "MIT") None false
    else if String.eqb pip "requests" then
      Pip.PipDetails (Some "requests") (Some "2.31") None
        (Some ["urllib3"]) (Some "MIT") (Some "https://requests.readthedocs.io") false
    else if String.eqb pip "urllib3" then
      Pip.PipDetails (Some "urllib3") (Some "2.0") None None (Some "MIT") None false
    else Pip.PipDetails None None None None None None false).

Definition installed_rank (pip : string) : nat :=
  if String.eqb pip "kssbuild" then 2
  else if String.eqb pip "requests" then 1 else 0.

(** A package whose metadata names no license. *)
Definition unlicensed_package : Pip.pips :=
  Pip.Pips (λ _, Pip.PipDetails (Some "left-pad") (Some "0.1") None None None None false).


End Sample.

(** * Properties *)

Import Py.

(** ** Insertion-ordered dicts *)

Section OdictFacts.
Context {V : Type}.
Implicit Types (d : odict V) (k : string) (v : V).

Lemma oget_oset_eq d k v : oget (oset d k v) k = Some v.
Proof.
  induction d as [|[k' v'] d IH]; simpl.
  - by rewrite decide_True.
  - destruct (decide (k = k')) as [->|Hne]; simpl.
    + by rewrite decide_True.
    + by rewrite decide_False.
Qed.

Lemma oget_oset_ne d k k' v : k ≠ k' → oget (oset d k v) k' = oget d k'.
Proof.
  intros Hne. induction d as [|[k0 v0] d IH]; simpl.
  - by rewrite decide_False.
  - destruct (decide (k = k0)) as [->|Hne0]; simpl.
    + by rewrite !decide_False.
    + destruct (decide (k' = k0)); [done | apply IH].
Qed.

Lemma oget_oset d k k' v :
  oget (oset d k v) k' = if decide (k = k') then Some v else oget d k'.
Proof.
  destruct (decide (k = k')) as [->|Hne].
  - apply oget_oset_eq.
  - by apply oget_oset_ne.
Qed.

Lemma oget_Some_elem d k v : oget d k = Some v → (k, v) ∈ d.
Proof.
  induction d as [|[k' v'] d IH]; simpl; [done|].
  destruct (decide (k = k')) as [->|Hne].
  - intros [= ->]. left.
  - intros H. right. by apply IH.
Qed.

Lemma oget_None_keys d k : oget d k = None ↔ k ∉ okeys d.
Proof.
  induction d as [|[k' v'] d IH]; simpl.
  - split; [intros _; apply not_elem_of_nil | done].
  - rewrite not_elem_of_cons. destruct (decide (k = k')) as [->|Hne].
    + split; [done | by intros [? _]].
    + rewrite IH. tauto.
Qed.

Lemma okeys_oset_fresh d k v :
  oget d k = None → oset d k v = d ++ [(k, v)].
Proof.
  induction d as [|[k' v'] d IH]; simpl; [done|].
  destruct (decide (k = k')); [done|]. intros H. by rewrite IH.
Qed.
Lemma elem_of_oset d k v k' v' :
  (k', v') ∈ oset d k v → (k' = k ∧ v' = v) ∨ (k', v') ∈ d.
Proof.
  induction d as [|[k0 v0] d IH]; simpl.
  - rewrite list_elem_of_singleton. intros [= -> ->]. by left.
  - destruct (decide (k = k0)) as [->|Hne]; rewrite !elem_of_cons.
    + intros [[= -> ->]|Hin]; [by left | right; by right].
    + intros [[= -> ->]|Hin]; [right; by left|].
      destruct (IH Hin) as [?|?]; [by left | right; by right].
Qed.

End OdictFacts.

(** ** The order on strings *)

Section StringOrder.
Import UsedBy.

Lemma ltb_false_le x y : String.ltb x y = false ↔ str_le y x.
Proof.
  unfold str_le, String.ltb, String.leb.
  rewrite (String.compare_antisym y x).
  destruct (String.compare x y); simpl; split; congruence.
Qed.

Lemma ltb_true_le x y : String.ltb x y = true → str_le x y.
Proof.
  unfold str_le, String.ltb, String.leb.
  destruct (String.compare x y); congruence.
Qed.

Lemma ltb_true_ne x y : String.ltb x y = true → x ≠ y.
Proof.
  unfold String.ltb. intros H ->.
  assert (String.compare y y = Eq) as Heq by (by apply String_as_OT.cmp_eq).
  by rewrite Heq in H.
Qed.

Lemma str_le_cases x y : str_le x y ↔ x = y ∨ String.ltb x y = true.
Proof.
  unfold str_le, String.ltb, String.leb.
  destruct (String.compare x y) eqn:Hc; split; try congruence; try tauto.
  - intros _. left. by apply String_as_OT.cmp_eq.
  - intros [->|?]; [|done].
    assert (String.compare y y = Eq) as Heq by (by apply String_as_OT.cmp_eq).
    congruence.
Qed.

Lemma ltb_trans x y z :
  String.ltb x y = true → String.ltb y z = true → String.ltb x z = true.
Proof.
  unfold String.ltb.
  destruct (String.compare x y) eqn:H1; try done.
  destruct (String.compare y z) eqn:H2; try done. intros _ _.
  apply String_as_OT.cmp_lt in H1, H2.
  pose proof (String_as_OT.lt_trans _ _ _ H1 H2) as H3.
  apply String_as_OT.cmp_lt in H3. unfold String_as_OT.cmp in H3. by rewrite H3.
Qed.

#[global] Instance str_le_trans : Transitive str_le.
Proof.
  intros x y z. rewrite !str_le_cases.
  intros [->|H1] [->|H2]; eauto using ltb_trans.
Qed.

Lemma le_ltb_trans x y z :
  str_le x y → String.ltb y z = true → String.ltb x z = true.
Proof. rewrite str_le_cases. intros [->|H1] H2; eauto using ltb_trans. Qed.

End StringOrder.

(** ** [bisect.insort] on a sorted list *)

Section Bisect.
Import UsedBy.

Lemma half_between (lo hi : nat) : (lo < hi → lo ≤ (lo + hi) / 2 < hi)%nat.
Proof.
  intros H. split.
  - apply Nat.div_le_lower_bound; lia.
  - apply Nat.Div0.div_lt_upper_bound; lia.
Qed.

(** The loop invariant of [bisect_right]: nothing left of [lo] is above
    [x], everything from [hi] on is. *)
Lemma bisect_right_spec (a : list string) (x : string) (lo hi : nat) :
  StronglySorted str_le a →
  (lo ≤ hi ≤ length a)%nat →
  Forall (λ y, str_le y x) (take lo a) →
  Forall (λ y, String.ltb x y = true) (drop hi a) →
  (lo ≤ bisect_right a x lo hi ≤ hi)%nat ∧
  Forall (λ y, str_le y x) (take (bisect_right a x lo hi) a) ∧
  Forall (λ y, String.ltb x y = true) (drop (bisect_right a x lo hi) a).
Proof.
  intros Hs. funelim (bisect_right a x lo hi); intros Hb Hlo Hhi;
    try match goal with
        | Hlt : (lo < hi)%nat |- _ => destruct (half_between lo hi Hlt) as [H1 H2]
        end.
  - (* lo = hi *)
    assert (lo = hi) as -> by lia. split; [lia | done].
  - (* a[mid] out of range: excluded by hi <= len(a) *)
    match goal with Hn : _ !! _ = None |- _ => apply lookup_ge_None in Hn end. lia.
  - (* x < a[mid] *)
    match goal with
    | Hy' : a !! _ = Some y, Hxy' : String.ltb x y = true,
      IH' : _ → _ → _ → _ → _ |- _ => rename Hy' into Hy, Hxy' into Hxy, IH' into IH
    end.
    destruct IH as (Hr & Hl & Hd); [done | lia | done | | split; [lia | done]].
    rewrite (drop_S a y _ Hy). constructor; [done|].
    rewrite <- (take_drop_middle a _ y Hy) in Hs.
    apply StronglySorted_app_1_r, StronglySorted_cons in Hs as [Hall _].
    eapply Forall_impl; [exact Hall|]. simpl. intros z Hz.
    apply str_le_cases in Hz as [<-|Hz]; [done | by eapply ltb_trans].
  - (* a[mid] <= x *)
    match goal with
    | Hy' : a !! _ = Some y, Hxy' : String.ltb x y = false,
      IH' : _ → _ → _ → _ → _ |- _ => rename Hy' into Hy, Hxy' into Hxy, IH' into IH
    end.
    destruct IH as (Hr & Hl & Hd); [done | lia | | done | split; [lia | done]].
    rewrite (take_S_r a _ y Hy). apply Forall_app. split.
    + apply Forall_forall. intros z Hz.
      rewrite <- (take_drop_middle a _ y Hy) in Hs.
      apply (str_le_trans z y x).
      * eapply StronglySorted_app_1_elem_of; [exact Hs | exact Hz | left].
      * by apply ltb_false_le.
    + constructor; [by apply ltb_false_le | constructor].
Qed.

Lemma insort_sorted a x :
  StronglySorted str_le a → StronglySorted str_le (insort a x).
Proof.
  intros Hs. unfold insort.
  destruct (bisect_right_spec a x 0 (length a) Hs) as (_ & Hl & Hd).
  { lia. } { constructor. } { rewrite drop_all. constructor. }
  set (r := bisect_right a x 0 (length a)) in *.
  rewrite <- (take_drop r a) in Hs.
  apply StronglySorted_app in Hs as (Hx & Hs1 & Hs2).
  apply StronglySorted_app_2; [| done |].
  - intros y z Hy. rewrite elem_of_cons. intros [->|Hz].
    + by eapply Forall_forall in Hl.
    + by apply Hx.
  - constructor; [done|].
    eapply Forall_impl; [exact Hd|]. simpl. intros z. apply ltb_true_le.
Qed.

Lemma insort_Permutation a x : insort a x ≡ₚ x :: a.
Proof.
  unfold insort. set (r := bisect_right a x 0 (length a)).
  rewrite <- (take_drop r a) at 3.
  by rewrite Permutation_middle.
Qed.

Lemma sorted_dedup_insort a x :
  sorted_dedup a → x ∉ a → sorted_dedup (insort a x).
Proof.
  intros [Hs Hn] Hx. split.
  - apply StronglySorted_Sorted, insort_sorted.
    by apply (@sorting.Sorted_StronglySorted _ str_le str_le_trans).
  - rewrite insort_Permutation. by constructor.
Qed.

Lemma increasing_sorted_dedup l : increasing l = true → sorted_dedup l.
Proof.
  intros H.
  assert (StronglySorted (λ x y, String.ltb x y = true) l) as Hs.
  { apply (@sorting.Sorted_StronglySorted _ _ ltb_trans).
    induction l as [|x [|y l] IH]; [constructor | repeat constructor |].
    simpl in H. apply andb_prop in H as [Hxy H].
    constructor; [by apply IH | by constructor]. }
  clear H. split.
  - apply StronglySorted_Sorted.
    induction Hs as [|x l Hs IH Hall]; constructor; [done|].
    eapply Forall_impl; [exact Hall|]. intros y. apply ltb_true_le.
  - induction Hs as [|x l Hs IH Hall]; constructor; [|done].
    intros Hin. eapply Forall_forall in Hall; [|exact Hin].
    by apply ltb_true_ne in Hall.
Qed.

Lemma used_by_okb_ok (lic : dict) : used_by_okb lic = true → used_by_ok lic.
Proof.
  unfold used_by_okb, used_by_ok. intros H v Hv. rewrite Hv in H.
  destruct v as [| | |l]; try done. exists l. split; [done|].
  by apply increasing_sorted_dedup.
Qed.

Lemma sorted_dedup_singleton x : sorted_dedup [x].
Proof.
  split.
  - repeat constructor.
  - apply NoDup_singleton.
Qed.

End Bisect.

(** ** [ensure_used_by] and the SPDX fields touch their own keys only *)

Section EntryFacts.
Import UsedBy.

Lemma ensure_used_by_frame m (lic lic' : dict) f :
  ensure_used_by m lic = Return lic' → f ≠ "x-usedBy" → lic' !! f = lic !! f.
Proof.
  unfold ensure_used_by. intros H Hf.
  destruct (lic !! "x-usedBy") as [[| |s|l]|] eqn:Hu; try done.
  - destruct (contains s m); by simplify_eq.
  - destruct (decide (m ∈ l)); simplify_eq; [done|]. by rewrite lookup_insert_ne.
  - simplify_eq. by rewrite lookup_insert_ne.
Qed.

Lemma ensure_used_by_absent m (lic : dict) :
  lic !! "x-usedBy" = None →
  ensure_used_by m lic = Return (<["x-usedBy" := PList [m]]> lic).
Proof. unfold ensure_used_by. by intros ->. Qed.

Lemma ensure_used_by_member m (lic lic' : dict) :
  ensure_used_by m lic = Return lic' →
  (∃ l, lic' !! "x-usedBy" = Some (PList l) ∧ m ∈ l) ∨
  (∃ s, lic' = lic ∧ lic !! "x-usedBy" = Some (PStr s) ∧ contains s m = true).
Proof.
  unfold ensure_used_by. intros H.
  destruct (lic !! "x-usedBy") as [[| |s|l]|] eqn:Hu; try done.
  - destruct (contains s m) eqn:Hc; simplify_eq. right. eauto.
  - left. destruct (decide (m ∈ l)); simplify_eq.
    + eauto.
    + exists (insort l m). rewrite lookup_insert_eq. split; [done|].
      rewrite insort_Permutation. left.
  - left. simplify_eq. exists [m]. rewrite lookup_insert_eq. split; [done | left].
Qed.

Lemma ensure_used_by_twice m (lic : dict) :
  ensure_used_by m lic ≫= ensure_used_by m = ensure_used_by m lic.
Proof.
  destruct (ensure_used_by m lic) as [lic'|ex] eqn:H; [|done]. simpl.
  destruct (ensure_used_by_member _ _ _ H) as [(l & Hl & Hin)|(s & -> & Hs & Hc)].
  - unfold ensure_used_by. rewrite Hl. by rewrite decide_True.
  - done.
Qed.

Lemma ensure_used_by_ok m (lic lic' : dict) :
  used_by_ok lic → ensure_used_by m lic = Return lic' →
  ∃ l, lic' !! "x-usedBy" = Some (PList l) ∧ sorted_dedup l.
Proof.
  unfold ensure_used_by. intros Hok H.
  destruct (lic !! "x-usedBy") as [v|] eqn:Hu.
  - destruct (Hok v Hu) as (l & -> & Hl).
    destruct (decide (m ∈ l)); simplify_eq.
    + eauto.
    + exists (insort l m). rewrite lookup_insert_eq. split; [done|].
      by apply sorted_dedup_insort.
  - simplify_eq. exists [m]. rewrite lookup_insert_eq.
    split; [done | apply sorted_dedup_singleton].
Qed.

Lemma set_into_license_frame en (lic : dict) f :
  f ≠ "moduleLicense" → f ≠ "x-spdxId" → f ≠ "x-isOsiApproved" →
  SPDX.set_into_license en lic !! f = lic !! f.
Proof.
  intros. unfold SPDX.set_into_license. by rewrite !lookup_insert_ne.
Qed.

End EntryFacts.

(** ** One step of the merge *)

Section MergeStep.
Import UsedBy Scanner.

(** What the remote resolution may return: the entry itself, or the entry
    with the SPDX fields set. *)
Lemma resolve_remotely_shape e lic gh lic' gh' :
  resolve_remotely e lic gh = (Return lic', gh') →
  lic' = lic ∨ ∃ en, lic' = SPDX.set_into_license en lic.
Proof.
  unfold resolve_remotely.
  destruct (GitHub.lookup _ _ _) as [[[id|]|ex] gh1]; [| intros [= <- _]; by left | done].
  destruct (truthy _); [|intros [= <- _]; by left].
  destruct (SPDX.get_entry _ _) as [[en|]|ex]; intros [= <- _]; eauto.
Qed.

(** The three things the loop body can do to the mapping. *)
Inductive step_shape (m : string) (lic : dict) (l l' : licenses_t) : Prop :=
| step_none : l' = l → step_shape m lic l l'
| step_used_by key existing existing' :
    oget l key = Some existing →
    ensure_used_by m existing = Return existing' →
    l' = oset l key existing' →
    step_shape m lic l l'
| step_added key lic1 lic2 :
    module_name lic = Return key →
    oget l key = None →
    (lic1 = lic ∧ is_Some (lic !! "x-usedBy") ∨
     lic1 = <["x-usedBy" := PList [m]]> lic ∧ lic !! "x-usedBy" = None) →
    (lic2 = lic1 ∨ ∃ en, lic2 = SPDX.set_into_license en lic1) →
    l' = oset l key lic2 →
    step_shape m lic l l'.

Lemma adjust_and_add_shape e m lic st r st' :
  adjust_and_add e m lic st = (r, st') →
  step_shape m lic (licenses st) (licenses st').
Proof.
  unfold adjust_and_add.
  destruct (module_name lic) as [key|ex] eqn:Hkey; [|intros [= _ <-]; by apply step_none].
  destruct (oget (licenses st) key) as [existing|] eqn:Hget.
  - destruct (_should_add_to_used_by lic); [|intros [= _ <-]; by apply step_none].
    destruct (ensure_used_by m existing) as [existing'|ex] eqn:Hens;
      intros [= _ <-]; [|by apply step_none].
    by eapply step_used_by.
  - unfold _should_add_to_used_by.
    destruct (lic !! "x-usedBy") as [v|] eqn:Hu.
    + destruct (getitem lic "moduleLicense" ≫= SPDX.search (spdx e)) as [[en|]|ex].
      * intros [= _ <-]. eapply (step_added _ _ _ _ key lic); eauto.
      * destruct (resolve_remotely e lic (github st)) as [[lic2|ex] gh'] eqn:Hres;
          intros [= _ <-]; [|by apply step_none].
        eapply (step_added _ _ _ _ key lic lic2); eauto.
        by eapply resolve_remotely_shape.
      * intros [= _ <-]. by apply step_none.
    + rewrite (ensure_used_by_absent _ _ Hu).
      set (lic1 := <["x-usedBy" := PList [m]]> lic).
      destruct (getitem lic1 "moduleLicense" ≫= SPDX.search (spdx e)) as [[en|]|ex].
      * intros [= _ <-]. eapply (step_added _ _ _ _ key lic1); eauto.
      * destruct (resolve_remotely e lic1 (github st)) as [[lic2|ex] gh'] eqn:Hres;
          intros [= _ <-]; [|by apply step_none].
        eapply (step_added _ _ _ _ key lic1 lic2); eauto.
        by eapply resolve_remotely_shape.
      * intros [= _ <-]. by apply step_none.
Qed.

(** An entry already in the mapping keeps every field but [x-usedBy]. *)
Lemma step_frame m lic l l' k old :
  step_shape m lic l l' → oget l k = Some old →
  ∃ new, oget l' k = Some new ∧ ∀ f, f ≠ "x-usedBy" → new !! f = old !! f.
Proof.
  intros [->|key existing existing' Hget Hens ->|key lic1 lic2 _ Hnone _ _ ->] Hold.
  - eauto.
  - rewrite oget_oset. destruct (decide (key = k)) as [->|]; [|eauto].
    exists existing'. split; [done|]. intros f Hf.
    rewrite Hold in Hget. simplify_eq. by eapply ensure_used_by_frame.
  - rewrite oget_oset_ne; [eauto|]. intros ->. congruence.
Qed.

(** The used-by lists stay sorted and free of duplicates. *)
Lemma step_used_by_ok m lic l l' :
  step_shape m lic l l' → used_by_ok lic →
  (∀ k old, oget l k = Some old → used_by_ok old ∧ is_Some (old !! "x-usedBy")) →
  ∀ k new, oget l' k = Some new → used_by_ok new ∧ is_Some (new !! "x-usedBy").
Proof.
  intros [->|key existing existing' Hget Hens ->|key lic1 lic2 _ _ H1 H2 ->] Hlic Hinv k new.
  - apply Hinv.
  - rewrite oget_oset. destruct (decide (key = k)) as [->|]; [|apply Hinv].
    intros [= <-]. destruct (Hinv _ _ Hget) as [Hok _].
    destruct (ensure_used_by_ok _ _ _ Hok Hens) as (u & Hu & Hsd).
    split; [|by rewrite Hu]. intros v. rewrite Hu. intros [= <-]. eauto.
  - rewrite oget_oset. destruct (decide (key = k)) as [->|]; [|apply Hinv].
    intros [= <-].
    assert (used_by_ok lic1 ∧ is_Some (lic1 !! "x-usedBy")) as [Hok1 Hs1].
    { destruct H1 as [[-> Hs]|[-> Hn]]; [done|].
      split; [|by rewrite lookup_insert_eq].
      intros v. rewrite lookup_insert_eq. intros [= <-].
      eexists. split; [done | apply sorted_dedup_singleton]. }
    destruct H2 as [->|[en ->]]; [done|].
    unfold used_by_ok. by rewrite set_into_license_frame.
Qed.

(** The mapping stays keyed by module name. *)
Lemma module_name_Return (lic : dict) key :
  module_name lic = Return key ↔ lic !! "moduleName" = Some (PStr key).
Proof.
  unfold module_name.
  destruct (lic !! "moduleName") as [[| | |]|]; split; intros; by simplify_eq.
Qed.

Lemma step_keyed m lic l l' :
  step_shape m lic l l' → keyed_by_name l → keyed_by_name l'.
Proof.
  intros [->|key existing existing' Hget Hens ->|key lic1 lic2 Hk _ H1 H2 ->] Hinv;
    [done| |]; intros k new Hin; apply elem_of_oset in Hin as [[-> ->]|Hin]; eauto.
  - erewrite ensure_used_by_frame by done. apply Hinv. by apply oget_Some_elem.
  - apply module_name_Return in Hk.
    assert (lic1 !! "moduleName" = Some (PStr key)) as Hk1.
    { destruct H1 as [[-> _]|[-> _]]; [done | by rewrite lookup_insert_ne]. }
    destruct H2 as [->|[en ->]]; [done | by rewrite set_into_license_frame].
Qed.

End MergeStep.

(** ** The merge step as a whole *)

Section Merge.
Import UsedBy Scanner.

Lemma merge_steps (P : licenses_t → Prop) e m new_licenses st r st' :
  _adjust_and_add_new_licenses e m new_licenses st = (r, st') →
  (∀ lic l l', lic ∈ new_licenses → step_shape m lic l l' → P l → P l') →
  P (licenses st) → P (licenses st').
Proof.
  revert st. induction new_licenses as [|lic rest IH]; intros st; simpl.
  - by intros [= _ <-].
  - destruct (adjust_and_add e m lic st) as [[[]|ex] st1] eqn:H1.
    + intros Hrest Hstep HP. eapply IH; [exact Hrest | |].
      * intros ? ? ? Hin. apply Hstep. by right.
      * eapply Hstep; [left | by eapply adjust_and_add_shape | done].
    + intros [= _ <-] Hstep HP.
      eapply Hstep; [left | by eapply adjust_and_add_shape | done].
Qed.

Lemma merge_frame e m new_licenses st r st' k old :
  _adjust_and_add_new_licenses e m new_licenses st = (r, st') →
  oget (licenses st) k = Some old →
  ∃ new, oget (licenses st') k = Some new ∧
         ∀ f, f ≠ "x-usedBy" → new !! f = old !! f.
Proof.
  intros Hrun Hold.
  apply (merge_steps
           (λ l, ∃ new, oget l k = Some new ∧
                        ∀ f, f ≠ "x-usedBy" → new !! f = old !! f)
           _ _ _ _ _ _ Hrun); [|eauto].
  intros lic l l' _ Hstep (mid & Hmid & Hsame).
  destruct (step_frame _ _ _ _ _ _ Hstep Hmid) as (new & Hnew & Hsame').
  exists new. split; [done|]. intros f Hf. by rewrite Hsame', Hsame.
Qed.

Lemma add_licenses_frame e m sc st r st' k old :
  add_licenses e m sc st = (r, st') →
  oget (licenses st) k = Some old →
  ∃ new, oget (licenses st') k = Some new ∧
         ∀ f, f ≠ "x-usedBy" → new !! f = old !! f.
Proof.
  unfold add_licenses.
  destruct (should_scan sc) as [[]|]; [| intros [= _ <-]; eauto..].
  destruct (scan sc) as [new_licenses|]; [| intros [= _ <-]; eauto].
  apply merge_frame.
Qed.

Lemma merge_used_by_ok e m new_licenses st r st' :
  Forall used_by_ok new_licenses →
  _adjust_and_add_new_licenses e m new_licenses st = (r, st') →
  (∀ k old, oget (licenses st) k = Some old →
            used_by_ok old ∧ is_Some (old !! "x-usedBy")) →
  ∀ k new, oget (licenses st') k = Some new →
           used_by_ok new ∧ is_Some (new !! "x-usedBy").
Proof.
  intros Hall Hrun.
  apply (merge_steps
           (λ l, ∀ k old, oget l k = Some old →
                          used_by_ok old ∧ is_Some (old !! "x-usedBy"))
           _ _ _ _ _ _ Hrun).
  intros lic l l' Hin Hstep. eapply step_used_by_ok; [done|].
  by eapply Forall_forall in Hall.
Qed.

Lemma merge_keyed e m new_licenses st r st' :
  _adjust_and_add_new_licenses e m new_licenses st = (r, st') →
  keyed_by_name (licenses st) → keyed_by_name (licenses st').
Proof.
  intros Hrun. apply (merge_steps keyed_by_name _ _ _ _ _ _ Hrun).
  intros lic l l' _. apply step_keyed.
Qed.

Lemma run_scanners_used_by_ok e m scanners st r st' :
  (∀ sc l, sc ∈ scanners → scan sc = Return l → Forall used_by_ok l) →
  run_scanners e m scanners st = (r, st') →
  (∀ k old, oget (licenses st) k = Some old →
            used_by_ok old ∧ is_Some (old !! "x-usedBy")) →
  ∀ k new, oget (licenses st') k = Some new →
           used_by_ok new ∧ is_Some (new !! "x-usedBy").
Proof.
  revert st. induction scanners as [|sc rest IH]; intros st Hsc; simpl.
  - by intros [= _ <-].
  - assert (∀ st1 r1, add_licenses e m sc st = (r1, st1) →
              (∀ k old, oget (licenses st) k = Some old →
                        used_by_ok old ∧ is_Some (old !! "x-usedBy")) →
              ∀ k new, oget (licenses st1) k = Some new →
                       used_by_ok new ∧ is_Some (new !! "x-usedBy")) as Hone.
    { intros st1 r1. unfold add_licenses.
      destruct (should_scan sc) as [[]|]; [| by intros [= _ <-]..].
      destruct (scan sc) as [new_licenses|] eqn:Hscan; [| by intros [= _ <-]].
      apply merge_used_by_ok. eapply Hsc; [left | done]. }
    destruct (add_licenses e m sc st) as [[[]|ex] st1] eqn:H1.
    + intros Hrest Hinv. eapply IH; [| exact Hrest | by eapply Hone].
      intros ? ? Hin. apply Hsc. by right.
    + intros [= _ <-] Hinv. by eapply Hone.
Qed.

Lemma run_scanners_keyed e m scanners st r st' :
  run_scanners e m scanners st = (r, st') →
  keyed_by_name (licenses st) → keyed_by_name (licenses st').
Proof.
  revert st. induction scanners as [|sc rest IH]; intros st; simpl.
  - by intros [= _ <-].
  - assert (∀ st1 r1, add_licenses e m sc st = (r1, st1) →
              keyed_by_name (licenses st) → keyed_by_name (licenses st1)) as Hone.
    { intros st1 r1. unfold add_licenses.
      destruct (should_scan sc) as [[]|]; [| by intros [= _ <-]..].
      destruct (scan sc) as [new_licenses|]; [| by intros [= _ <-]].
      apply merge_keyed. }
    destruct (add_licenses e m sc st) as [[[]|ex] st1] eqn:H1.
    + intros Hrest Hinv. eapply IH; [exact Hrest | by eapply Hone].
    + intros [= _ <-] Hinv. by eapply Hone.
Qed.

(** C1.  When the module name of an incoming entry is already a key of
    the aggregate mapping, the loop body of
    [_adjust_and_add_new_licenses] leaves every field of the existing
    entry other than [x-usedBy] as it was, and every other entry
    untouched.  Hence whatever a scanner reports, [add_licenses] leaves
    every field but [x-usedBy] of every entry already in the mapping
    unchanged, the entries marked [x-manuallyEdited] among them. *)
Theorem merge_preserves_existing_entries e m :
  (∀ lic st r st' key old,
     adjust_and_add e m lic st = (r, st') →
     module_name lic = Return key →
     oget (licenses st) key = Some old →
     (∃ new, oget (licenses st') key = Some new ∧
             ∀ f, f ≠ "x-usedBy" → new !! f = old !! f) ∧
     (∀ k, k ≠ key → oget (licenses st') k = oget (licenses st) k)) ∧
  (∀ sc st r st' k old,
     add_licenses e m sc st = (r, st') →
     oget (licenses st) k = Some old →
     truthy (get_or_none old "x-manuallyEdited") = true →
     ∃ new, oget (licenses st') k = Some new ∧
            ∀ f, f ≠ "x-usedBy" → new !! f = old !! f).
Proof.
  split.
  - intros lic st r st' key old Hstep Hkey Hold. split.
    + eapply step_frame; [by eapply adjust_and_add_shape | done].
    + intros k Hk. revert Hstep. unfold adjust_and_add. rewrite Hkey, Hold.
      destruct (_should_add_to_used_by lic); [|by intros [= _ <-]].
      destruct (ensure_used_by m old); intros [= _ <-]; [|done].
      simpl. by rewrite oget_oset_ne.
  - intros sc st r st' k old Hrun Hold _. by eapply add_licenses_frame.
Qed.

(** C1, on a project: a scanner reports [zlib] again, with another
    license and a version, after the hand-edited entry went in. *)
Lemma merge_preserves_existing_entries_witness :
  ∃ new,
    oget (licenses
            (add_licenses Sample.env "app" Sample.rescanned
               (run_scanners Sample.env "app" [Sample.manual] init).2).2) "zlib"
      = Some new ∧
    ∀ f, f ≠ "x-usedBy" →
         new !! f
         = default ∅
             (oget (licenses (run_scanners Sample.env "app" [Sample.manual] init).2)
                   "zlib") !! f.
Proof.
  apply (proj2 (merge_preserves_existing_entries Sample.env "app")
           Sample.rescanned _ _ _ "zlib" _ (surjective_pairing _)).
  - vm_compute. reflexivity.
  - vm_compute. reflexivity.
Defined.

(** C2 as stated fails: a hand-edited entry of the previous report enters
    the mapping with the used-by list it carries, here with [b] before
    [a] and [a] twice. *)
Lemma used_by_kept_as_reported :
  ∃ st lic,
    run_scanners Sample.env "app" [Sample.manual_unsorted] init = (Return tt, st) ∧
    oget (licenses st) "zlib" = Some lic ∧
    lic !! "x-usedBy" = Some (PList ["b"; "a"; "a"]) ∧
    ¬ sorted_dedup ["b"; "a"; "a"].
Proof.
  eexists _, _. split; [vm_compute; reflexivity|].
  split; [vm_compute; reflexivity|]. split; [reflexivity|].
  intros [_ Hn]. apply NoDup_cons in Hn as [_ Hn]. apply NoDup_cons in Hn as [Hn _].
  apply Hn. left.
Qed.

(** C2, amended.  If every entry a scanner reports either has no
    [x-usedBy] or has one that is a sorted list without duplicates, then
    after the scanners ran every entry of the aggregate mapping has an
    [x-usedBy] list that is sorted and without duplicates.  And calling
    [ensure_used_by] a second time with the same module name does what
    calling it once does. *)
Theorem used_by_sorted_when_reported_sorted e m :
  (∀ scanners r st,
     (∀ sc l, sc ∈ scanners → scan sc = Return l → Forall used_by_ok l) →
     run_scanners e m scanners init = (r, st) →
     ∀ k lic, oget (licenses st) k = Some lic →
              ∃ l, lic !! "x-usedBy" = Some (PList l) ∧ sorted_dedup l) ∧
  (∀ modulename lic,
     ensure_used_by modulename lic ≫= ensure_used_by modulename
     = ensure_used_by modulename lic).
Proof.
  split; [|intros; apply ensure_used_by_twice].
  intros scanners r st Hsc Hrun k lic Hget.
  destruct (run_scanners_used_by_ok _ _ _ _ _ _ Hsc Hrun) with (k := k) (new := lic)
    as [Hok [v Hv]]; [done | done |].
  destruct (Hok v Hv) as (l & -> & Hl). eauto.
Qed.

(** C2 amended, on a project: the hand-edited entry, then a scanner that
    reports the same module for the project [app]. *)
Lemma used_by_sorted_when_reported_sorted_witness :
  ∃ l, default ∅
         (oget (licenses
                  (run_scanners Sample.env "app" [Sample.manual; Sample.rescanned]
                     init).2) "zlib") !! "x-usedBy" = Some (PList l) ∧
       sorted_dedup l.
Proof.
  assert (∀ sc l, sc ∈ [Sample.manual; Sample.rescanned] →
                  scan sc = Return l → Forall used_by_ok l) as Hsc.
  { intros sc l Hin Hscan.
    apply elem_of_cons in Hin as [->|Hin];
      [|apply list_elem_of_singleton in Hin as ->];
      injection Hscan as <-; repeat constructor;
      apply used_by_okb_ok; vm_compute; reflexivity. }
  destruct (proj1 (used_by_sorted_when_reported_sorted Sample.env "app")
              [Sample.manual; Sample.rescanned] _ _ Hsc (surjective_pairing _)
              "zlib" _ ltac:(vm_compute; reflexivity)) as (l & Hl & Hsd).
  exists l. split; [|done]. rewrite <- Hl. vm_compute. reflexivity.
Defined.

End Merge.

(** ** The remote lookup adapter *)

Section Remote.
Import GitHub.

Lemma can_call_exhausted n st :
  _remaining_calls st = 0%Z → _can_call_github n st = (false, st).
Proof. intros H. unfold _can_call_github. rewrite H. simpl. by rewrite H. Qed.

Lemma try_api_exhausted n key organization st :
  _remaining_calls st = 0%Z → _try_api n key organization st = (None, st).
Proof. intros H. unfold _try_api. by rewrite can_call_exhausted. Qed.

Lemma lookup_exhausted n url st r st' :
  _remaining_calls st = 0%Z → lookup n url st = (r, st') → st' = st.
Proof.
  intros H. unfold lookup.
  destruct (_parse_url n url) as [[[host organization] [project|]]|];
    [| by intros [= _ <-]..].
  destruct (_cached st !! _); [by intros [= _ <-]|].
  destruct (decide (host = Some "github.com")); [|by intros [= _ <-]].
  rewrite !try_api_exhausted by done. by intros [= _ <-].
Qed.

Lemma lookups_exhausted n urls st rs st' :
  _remaining_calls st = 0%Z → lookups n urls st = (rs, st') → st' = st.
Proof.
  intros H. revert rs. induction urls as [|url urls IH]; intros rs; simpl.
  - by intros [= _ <-].
  - destruct (lookup n url st) as [r st1] eqn:H1.
    apply lookup_exhausted in H1 as ->; [|done].
    destruct (lookups n urls st) as [rs' st2] eqn:H2.
    intros [= _ <-]. by eapply IH.
Qed.

(** [project] is set only after [organization]. *)
Lemma parse_parts_project parts organization project o p :
  parse_parts parts organization project = (o, Some p) →
  (organization = None → project = None) →
  ∃ org, o = Some org.
Proof.
  revert organization project.
  induction parts as [|part rest IH]; intros organization project; simpl.
  - intros [= <- ->] H. destruct organization; [eauto | by specialize (H eq_refl)].
  - destruct (String.eqb part EmptyString); [apply IH|].
    destruct organization as [org|].
    + destruct project.
      * intros H _. eapply IH; [exact H | done].
      * intros [= <- _] _. eauto.
    + intros H Hp. eapply IH; [exact H | done].
Qed.

(** C3 as stated fails: the first lookup uses up the budget of one call
    and caches the organization; the second lookup, made with the budget
    at zero, still answers [MIT], from the cache. *)
Lemma cached_answer_after_budget_spent :
  ∃ st1 st2,
    lookup Sample.one_call (PStr "https://github.com/kss/pyutil.git") init
      = (Return (Some "MIT"), st1) ∧
    _remaining_calls st1 = 0%Z ∧
    lookup Sample.one_call (PStr "https://github.com/kss/pyutil.git") st1
      = (Return (Some "MIT"), st2) ∧
    Return (Some "MIT") ≠ Return (None : option string).
Proof.
  eexists _, _. split; [vm_compute; reflexivity|].
  split; [reflexivity|]. split; [vm_compute; reflexivity | done].
Qed.

(** C3, amended.  Once the remaining-call budget is zero, no sequence of
    lookups requests anything from the network or changes the adapter
    (budget, cache, log of requests); and a lookup of a URL with an
    organization and a project returns [None], unless the organization is
    in the cache, in which case the answer is the cached one. *)
Theorem no_network_once_budget_spent n st :
  _remaining_calls st = 0%Z →
  (∀ urls rs st', lookups n urls st = (rs, st') →
                  requested st' = requested st ∧ st' = st) ∧
  (∀ url host organization project r st',
     _parse_url n url = Return (host, Some organization, Some project) →
     lookup n url st = (r, st') →
     match _cached st !! organization with
     | None => r = Return None
     | Some projects =>
         r = _license_from_entry projects
               (if endswith project ".git" then drop_back 4 project else project)
     end).
Proof.
  intros H. split.
  - intros urls rs st' Hrun. apply lookups_exhausted in Hrun as ->; done.
  - intros url host organization project r st' Hparse. unfold lookup.
    rewrite Hparse. simpl.
    destruct (_cached st !! organization); [by intros [= <- _]|].
    destruct (decide (host = Some "github.com")); [|by intros [= <- _]].
    rewrite !try_api_exhausted by done. by intros [= <- _].
Qed.

(** C3 amended, on an adapter whose budget is spent and cache empty. *)
Lemma no_network_once_budget_spent_witness :
  (lookups Sample.offline
     [PStr "https://github.com/kss/pyutil.git"; PStr "https://github.com/kss/kssio"]
     Sample.exhausted).2 = Sample.exhausted.
Proof.
  apply (proj1 (no_network_once_budget_spent Sample.offline Sample.exhausted eq_refl)
           _ _ _ (surjective_pairing _)).
Defined.

(** C4 fails on the code: [lookup(None)], which the merge step calls for
    every unresolved entry without [moduleUrl], raises [AttributeError]
    at [project.endswith], outside of any [try]; so does a URL without a
    project segment, and so does a cached repository whose [license] is
    [null].  The merge of such an entry aborts with that exception. *)
Theorem lookup_propagates_attribute_error :
  (∀ n st, lookup n PNone st = (Raise AttributeError, st)) ∧
  lookup Sample.offline (PStr "https://github.com/kss") init
    = (Raise AttributeError, init) ∧
  (∀ project_name rest,
     _license_from_entry
       (ReposBody (Project (Some project_name) LicenseNull :: rest)) project_name
     = Raise AttributeError) ∧
  (Scanner.run_scanners Sample.env "app" [Sample.rescanned] Scanner.init).1
    = Raise AttributeError.
Proof.
  split; [done|]. split; [by vm_compute|]. split; [|by vm_compute].
  intros project_name rest. simpl. by rewrite String.eqb_refl.
Qed.

End Remote.

(** ** The SPDX table *)

Section Spdx.
Import SPDX.

Lemma search_str_unfold db s :
  search db (PStr s) =
  match _entries db !! s with
  | Some e => Return (Some e)
  | None =>
      match _try_name_search db (PStr s) with
      | Return (Some e) => Return (Some e)
      | Return None => _try_ninka_overrides db (PStr s)
      | Raise ex => Raise ex
      end
  end.
Proof.
  unfold search, get_entry. simpl. destruct (_entries db !! s); [done|].
  by destruct (_try_name_search db (PStr s)) as [[?|]|].
Qed.


Lemma ninka_overrides_str db s :
  _try_ninka_overrides db (PStr s) =
  Return (match _ninka_fallbacks !! s with
          | Some id => _entries db !! id
          | None => by_stripped_prefix db s
          end).
Proof.
  unfold _try_ninka_overrides, by_stripped_prefix, get_entry. simpl.
  destruct (_ninka_fallbacks !! s); [done|]. by destruct (startswith s "spdx").
Qed.

(** [search] never raises on a string. *)
Lemma search_str_returns db s : ∃ r, search db (PStr s) = Return r.
Proof.
  rewrite search_str_unfold. destruct (_entries db !! s); [eauto|].
  assert (∃ r, _try_name_search db (PStr s) = Return r) as [r ->].
  { unfold _try_name_search, get_entry. simpl.
    destruct (_name_map db !! s) as [id|]; [|eauto]. simpl.
    destruct (negb _); eauto. }
  destruct r; [eauto|]. rewrite ninka_overrides_str. eauto.
Qed.

(** [search(None)] gets through the three dictionary lookups and fails at
    [name.startswith]. *)
Lemma search_none_raises db : search db PNone = Raise AttributeError.
Proof. reflexivity. Qed.




End Spdx.

(** ** Strings: suffixes and the split at the first separator *)

Section Strings.

Lemma str_app_cons x a b : (String x a ++ b = String x (a ++ b))%string.
Proof. reflexivity. Qed.

Lemma str_app_nil b : (EmptyString ++ b = b)%string.
Proof. reflexivity. Qed.

Lemma str_length_app a b :
  String.length (a ++ b) = (String.length a + String.length b)%nat.
Proof.
  induction a as [|c a IH]; [done|]. rewrite str_app_cons. simpl. by rewrite IH.
Qed.

Lemma str_app_assoc a b c : ((a ++ b) ++ c = a ++ (b ++ c))%string.
Proof.
  induction a as [|x a IH]; [done|]. rewrite !str_app_cons. by rewrite IH.
Qed.

Lemma substring_all a : substring 0 (String.length a) a = a.
Proof. induction a as [|c a IH]; simpl; [done | by rewrite IH]. Qed.

Lemma substring_app_l a b : substring 0 (String.length a) (a ++ b) = a.
Proof.
  induction a as [|c a IH].
  - rewrite str_app_nil. by destruct b.
  - rewrite str_app_cons. simpl. by rewrite IH.
Qed.

Lemma substring_app_r a b :
  substring (String.length a) (String.length b) (a ++ b) = b.
Proof.
  induction a as [|c a IH].
  - rewrite str_app_nil. apply substring_all.
  - rewrite str_app_cons. simpl. apply IH.
Qed.

Lemma endswith_app a suffix : endswith (a ++ suffix) suffix = true.
Proof.
  unfold endswith. rewrite str_length_app.
  replace (String.length a + String.length suffix - String.length suffix)%nat
    with (String.length a) by lia.
  rewrite substring_app_r, String.eqb_refl, andb_true_r.
  apply Nat.leb_le. lia.
Qed.

Lemma drop_back_app a suffix :
  drop_back (String.length suffix) (a ++ suffix) = a.
Proof.
  unfold drop_back. rewrite str_length_app.
  replace (String.length a + String.length suffix - String.length suffix)%nat
    with (String.length a) by lia.
  apply substring_app_l.
Qed.

Lemma split1_absent c a : has_char c a = false → split1 c a = [a].
Proof.
  induction a as [|x a IH]; simpl; [done|].
  destruct (Ascii.eqb x c); [done|]. simpl. intros H. by rewrite IH.
Qed.

Lemma split1_first c a b :
  has_char c a = false → split1 c (a ++ String c b) = [a; b].
Proof.
  induction a as [|x a IH].
  - rewrite str_app_nil. simpl. by rewrite Ascii.eqb_refl.
  - rewrite str_app_cons. simpl.
    destruct (Ascii.eqb x c); [done|]. simpl. intros H. by rewrite IH.
Qed.

End Strings.

(** ** Names of tarballs *)

Section Tarball.
Import Dir.

(** C6.  [_parse_tarball_name('foo-1.2.3.tar.gz')] gives the name [foo]
    and the version [1.2.3].  In general the suffix [.tar.gz] is stripped
    and the rest is split at its first hyphen: the name is what precedes
    it, the version what follows; without a hyphen the name is the whole
    rest and the version is [None].  The directory is the rest below the
    prerequisites directory. *)
Theorem parse_tarball_name_splits_at_first_hyphen :
  _parse_tarball_name "foo-1.2.3.tar.gz"
    = ("foo", Some "1.2.3", ".prereqs/Darwin-x86_64/foo-1.2.3") ∧
  (∀ name version,
     has_char "-" name = false →
     _parse_tarball_name (name ++ "-" ++ version ++ ".tar.gz")
     = (name, Some version, (_PREREQS_DIRECTORY ++ "/" ++ name ++ "-" ++ version)%string)) ∧
  (∀ name,
     has_char "-" name = false →
     _parse_tarball_name (name ++ ".tar.gz")
     = (name, None, (_PREREQS_DIRECTORY ++ "/" ++ name)%string)) ∧
  (∀ filename,
     endswith filename ".tar.gz" = false →
     _parse_tarball_name filename
     = (List.hd EmptyString (split1 "-" filename),
        match split1 "-" filename with [_] => None | parts => List.nth_error parts 1 end,
        (_PREREQS_DIRECTORY ++ "/" ++ filename)%string)).
Proof.
  split; [reflexivity|]. split; [|split].
  - intros name version Hname. unfold _parse_tarball_name.
    replace (name ++ "-" ++ version ++ ".tar.gz")%string
      with ((name ++ "-" ++ version) ++ ".tar.gz")%string
      by (by rewrite !str_app_assoc).
    rewrite endswith_app.
    change 7 with (String.length ".tar.gz"). rewrite drop_back_app.
    change ("-" ++ version)%string with (String "-" version).
    by rewrite split1_first.
  - intros name Hname. unfold _parse_tarball_name.
    rewrite endswith_app.
    change 7 with (String.length ".tar.gz"). rewrite drop_back_app.
    by rewrite split1_absent.
  - intros filename Hsuffix. unfold _parse_tarball_name. rewrite Hsuffix.
    by destruct (split1 "-" filename) as [|? [|? ?]].
Qed.

(** C6, for the archive [kssutil-14.tar.gz]. *)
Lemma parse_tarball_name_splits_at_first_hyphen_witness :
  _parse_tarball_name "kssutil-14.tar.gz"
  = ("kssutil", Some "14", ".prereqs/Darwin-x86_64/kssutil-14").
Proof.
  apply (proj1 (proj2 parse_tarball_name_splits_at_first_hyphen) "kssutil" "14").
  reflexivity.
Defined.

End Tarball.

(** ** Writing the report *)

Section ReportFacts.
Import UsedBy Scanner Report.

Lemma insert_by_key_perm {A} (x : string * A) l : insert_by_key x l ≡ₚ x :: l.
Proof.
  induction l as [|y l IH]; simpl; [done|].
  destruct (String.ltb y.1 x.1); [|done].
  rewrite IH. apply Permutation_swap.
Qed.

Lemma sort_by_key_perm {A} (l : list (string * A)) : sort_by_key l ≡ₚ l.
Proof.
  induction l as [|x l IH]; simpl; [done|].
  rewrite insert_by_key_perm. by rewrite IH.
Qed.

Lemma insert_by_key_sorted {A} (x : string * A) l :
  Sorted key_le l → Sorted key_le (insert_by_key x l).
Proof.
  induction 1 as [|y l Hs IH Hhd]; simpl; [repeat constructor|].
  destruct (String.ltb y.1 x.1) eqn:Hyx.
  - constructor; [done|].
    destruct l as [|z l]; simpl.
    + constructor. by apply ltb_true_le.
    + destruct (String.ltb z.1 x.1).
      * constructor. by inversion Hhd.
      * constructor. by apply ltb_true_le.
  - constructor; [by constructor|]. constructor. by apply ltb_false_le.
Qed.

Lemma sort_by_key_sorted {A} (l : list (string * A)) : Sorted key_le (sort_by_key l).
Proof.
  induction l as [|x l IH]; simpl; [constructor | by apply insert_by_key_sorted].
Qed.

Lemma Sorted_key_le_fst {A} (l : list (string * A)) :
  Sorted key_le l → Sorted str_le (map fst l).
Proof.
  induction 1 as [|y l Hs IH Hhd]; simpl; constructor; [done|].
  destruct Hhd; simpl; by constructor.
Qed.

(** On a mapping keyed by module name, the keys computed by the sort are
    the keys of the mapping. *)
Lemma keyed_values (licenses : licenses_t) :
  keyed_by_name licenses →
  mapM (M := result) (λ lic, k ← module_name lic; Return (k, lic)) (ovalues licenses)
  = Return licenses.
Proof.
  induction licenses as [|[k lic] l IH]; intros Hk; [done|].
  unfold ovalues. simpl.
  assert (module_name lic = Return k) as ->.
  { apply module_name_Return, Hk. left. }
  simpl. unfold ovalues in IH. rewrite IH; [done|].
  intros k' lic' Hin. apply Hk. by right.
Qed.

Lemma sorted_by_module_name_keyed (licenses : licenses_t) :
  keyed_by_name licenses →
  sorted_by_module_name (ovalues licenses)
  = Return (map snd (sort_by_key licenses)).
Proof.
  intros Hk. unfold sorted_by_module_name. by rewrite keyed_values.
Qed.

Lemma sorted_values_by_name (licenses : licenses_t) :
  keyed_by_name licenses → sorted_by_name (map snd (sort_by_key licenses)).
Proof.
  intros Hk. exists (map fst (sort_by_key licenses)). split.
  - apply Forall2_fmap, Forall_Forall2_diag, Forall_forall.
    intros [k lic] Hin. simpl. apply Hk. by rewrite <- (sort_by_key_perm licenses).
  - apply Sorted_key_le_fst, sort_by_key_sorted.
Qed.

(** C7.  On an empty mapping [_write_licenses] returns without touching
    the file system: no report is written and a report left by an earlier
    run stays as it is, byte for byte.  On a non-empty aggregate mapping
    (keyed by module name, as the merge leaves it) it writes the report:
    the file holds the dump of all the entries, sorted by module name,
    whatever the file held before, and no other path changes except that
    the directory [Dependencies] exists.  The write needs what any write
    needs: [Dependencies] is not a regular file and the report path is not
    a directory. *)
Theorem write_licenses_report dump (fs : tree) :
  _write_licenses dump [] fs = (Return tt, fs) ∧
  (∀ licenses : licenses_t,
     licenses ≠ [] →
     keyed_by_name licenses →
     (∀ content, fs !! "Dependencies" ≠ Some (File content)) →
     fs !! _PREREQS_LICENSE_FILE ≠ Some Directory →
     ∃ deps fs',
       _write_licenses dump licenses fs = (Return tt, fs') ∧
       fs' !! _PREREQS_LICENSE_FILE = Some (File (dump deps)) ∧
       deps ≡ₚ ovalues licenses ∧
       sorted_by_name deps ∧
       fs' !! "Dependencies" = Some Directory ∧
       ∀ p, p ≠ _PREREQS_LICENSE_FILE → p ≠ "Dependencies" → fs' !! p = fs !! p).
Proof.
  split; [done|].
  intros licenses Hne Hk Hdir Hfile.
  exists (map snd (sort_by_key licenses)).
  unfold _write_licenses.
  destruct licenses as [|kv licenses]; [done|].
  change (0 <? length (kv :: licenses))%nat with true. cbv iota.
  rewrite (sorted_by_module_name_keyed _ Hk).
  assert (∃ fs1, (if isdir fs "Dependencies" then Return fs
                  else mkdir fs "Dependencies") = Return fs1 ∧
                 fs1 !! "Dependencies" = Some Directory ∧
                 ∀ p, p ≠ "Dependencies" → fs1 !! p = fs !! p)
    as (fs1 & -> & Hd1 & Hsame1).
  { unfold isdir, mkdir.
    destruct (fs !! "Dependencies") as [[c|]|] eqn:Hd.
    - by destruct (Hdir c).
    - eauto.
    - eexists. split; [done|]. split; [by rewrite lookup_insert_eq|].
      intros p Hp. by rewrite lookup_insert_ne. }
  assert (fs1 !! _PREREQS_LICENSE_FILE ≠ Some Directory) as Hfile1.
  { by rewrite Hsame1. }
  unfold write_file.
  eexists. split.
  { destruct (fs1 !! _PREREQS_LICENSE_FILE) as [[c|]|]; done. }
  split; [by rewrite lookup_insert_eq|].
  split. { unfold ovalues. by rewrite sort_by_key_perm. }
  split; [by apply sorted_values_by_name|].
  split; [by rewrite lookup_insert_ne|].
  intros p Hp1 Hp2. rewrite lookup_insert_ne by done. by apply Hsame1.
Qed.

(** C7, on the mapping holding the hand-edited entry, in a directory
    with the report of an earlier run. *)
Lemma write_licenses_report_witness :
  ∃ deps fs',
    _write_licenses Sample.dump_names Sample.aggregated Sample.previous_run
      = (Return tt, fs') ∧
    fs' !! _PREREQS_LICENSE_FILE = Some (File (Sample.dump_names deps)) ∧
    deps ≡ₚ ovalues Sample.aggregated ∧
    sorted_by_name deps ∧
    fs' !! "Dependencies" = Some Directory ∧
    ∀ p, p ≠ _PREREQS_LICENSE_FILE → p ≠ "Dependencies" →
         fs' !! p = Sample.previous_run !! p.
Proof.
  apply (proj2 (write_licenses_report Sample.dump_names Sample.previous_run)).
  - vm_compute. discriminate.
  - apply (run_scanners_keyed Sample.env "app" [Sample.manual] init _ _
             (surjective_pairing _)).
    intros k lic Hin. by apply elem_of_nil in Hin.
  - intros content. vm_compute. discriminate.
  - vm_compute. discriminate.
Defined.

End ReportFacts.

(** ** Prerequisites without a license file *)

Section Unlicensed.
Import Dir.

Lemma first_license_none entries :
  Forall (λ entry, startswith (upper entry) "LICENSE" = false) entries →
  first_license entries = None.
Proof.
  unfold first_license. induction 1 as [|entry entries H _ IH]; simpl; [done|].
  by rewrite H.
Qed.

Lemma get_license_filename_none fs dir :
  no_license_file fs dir → _get_license_filename fs dir = Return None.
Proof.
  unfold _get_license_filename. intros [->|(entries & -> & Hall)]; [done|].
  by rewrite first_license_none.
Qed.

Lemma license_from_details_unknown p other :
  _license_from_details (Details p other "Unknown") !! "moduleLicense"
  = Some (PStr "Unknown").
Proof. unfold _license_from_details. simpl. by rewrite lookup_insert_eq. Qed.

Lemma license_from_details_name d :
  _license_from_details d !! "moduleName" = Some (PStr (name (entry d))).
Proof.
  unfold _license_from_details. rewrite lookup_insert_ne by done.
  destruct (nonempty (url (entry d))), (nonempty (version (entry d)));
    rewrite ?lookup_insert_ne by done; apply lookup_singleton_eq.
Qed.

Lemma details_unknown e fs p other :
  _get_other_licenses fs (directory p) = Return other →
  without_license_file fs p → no_file_called_None fs p →
  _details_for_prereq e fs p = Return (Details p other "Unknown").
Proof.
  intros Hother Hno HNone. unfold _details_for_prereq. rewrite Hother. simpl.
  destruct (directory p) as [dir|] eqn:Hdir; [|done].
  destruct (isdir fs dir) eqn:Hisdir; [|done].
  rewrite (get_license_filename_none _ _ (Hno dir Hdir Hisdir)).
  change (Return None ≫= _) with
    (if isfile fs (dir ++ "/" ++ fmt None)
     then Scanner.guess_license_with_ninka e (dir ++ "/" ++ fmt None)
            ≫= λ lic, Return (Details p other lic)
     else Return (Details p other "Unknown")).
  by rewrite (HNone dir Hdir).
Qed.

Lemma process_prereq_unknown e fs p licenses :
  no_nested_report fs p →
  without_license_file fs p → no_file_called_None fs p →
  oget licenses (name p) = None →
  _process_prereq e fs p licenses
  = (Return tt,
     oset licenses (name p) (_license_from_details (Details p None "Unknown"))).
Proof.
  intros Hnested Hno HNone Hfresh. unfold _process_prereq.
  rewrite (details_unknown e fs p None); [| | done | done].
  - simpl. unfold omem. by rewrite Hfresh.
  - unfold _get_other_licenses. by rewrite Hnested.
Qed.

(** C8 as stated fails, twice.  A checkout without any [LICENSE*] entry
    but with a file called [None] has that file classified, and the
    entry's license is the classifier's answer.  And a checkout without
    license file whose own report is not valid JSON makes the scanner
    raise. *)
Lemma unknown_license_not_guaranteed :
  (without_license_file Sample.checkout_with_None Sample.kssutil ∧
   ∃ d, _details_for_prereq Sample.env_with_ninka Sample.checkout_with_None
          Sample.kssutil = Return d ∧
        _license_from_details d !! "moduleLicense" = Some (PStr "GPLv3")) ∧
  (without_license_file Sample.checkout_with_broken_report Sample.kssutil ∧
   _details_for_prereq Sample.env_with_ninka Sample.checkout_with_broken_report
     Sample.kssutil = Raise ValueError).
Proof.
  split; split.
  - intros dir [= <-] _. right. eexists. split; [reflexivity|].
    repeat constructor.
  - eexists. split; [vm_compute; reflexivity | by vm_compute].
  - intros dir [= <-] _. right. eexists. split; [reflexivity|].
    repeat constructor.
  - by vm_compute.
Qed.

(** C8, amended.  For a prerequisite whose directory is [None], missing,
    or lists no entry whose upper-cased name starts with [LICENSE], and
    whose own license report, if it has one, can be read, the
    directory-based scanners do not raise and produce an entry whose
    [moduleLicense] is [Unknown] (a directory holding a file called
    [None] is left aside).  In particular, for a manifest with one
    git-sourced and one tarball-sourced entry of different names, without
    license files and without reports of their own, the scan returns the
    two entries, both with [moduleLicense] equal to [Unknown]. *)
Theorem no_license_file_yields_unknown e fs :
  (∀ p,
     without_license_file fs p → no_file_called_None fs p →
     nested_report_readable fs p →
     ∃ d, _details_for_prereq e fs p = Return d ∧
          _license_from_details d !! "moduleLicense" = Some (PStr "Unknown")) ∧
  (∀ git_url tarball_url fname from_git,
     _prereq_for_git_entry fs git_url = Return from_git →
     let from_tarball := _prereq_for_tarball_entry fs tarball_url fname in
     name from_git ≠ name from_tarball →
     without_license_file fs from_git → without_license_file fs from_tarball →
     no_file_called_None fs from_git → no_file_called_None fs from_tarball →
     no_nested_report fs from_git → no_nested_report fs from_tarball →
     ∃ lic_git lic_tarball,
       kss_scan e fs [Manifest (Some git_url) None None None;
                      Manifest None (Some tarball_url) fname None]
       = Return [lic_git; lic_tarball] ∧
       lic_git !! "moduleName" = Some (PStr (name from_git)) ∧
       lic_git !! "moduleLicense" = Some (PStr "Unknown") ∧
       lic_tarball !! "moduleName" = Some (PStr (name from_tarball)) ∧
       lic_tarball !! "moduleLicense" = Some (PStr "Unknown")).
Proof.
  split.
  - intros p Hno HNone [other Hother].
    exists (Details p other "Unknown"). split.
    + by apply details_unknown.
    + apply license_from_details_unknown.
  - intros git_url tarball_url fname from_git Hgit from_tarball Hne
      Hno1 Hno2 HN1 HN2 Hn1 Hn2.
    exists (_license_from_details (Details from_git None "Unknown")),
           (_license_from_details (Details from_tarball None "Unknown")).
    split; [|by rewrite !license_from_details_name, !license_from_details_unknown].
    unfold kss_scan. simpl. rewrite Hgit. simpl.
    fold from_tarball. unfold scan. simpl.
    rewrite process_prereq_unknown by done. simpl.
    rewrite process_prereq_unknown; [| done | done | done |].
    + simpl. by rewrite decide_False.
    + simpl. by rewrite decide_False.
Qed.

(** C8 amended, on the checkout with a readme and sources only and the
    manifest naming it and a tarball. *)
Lemma no_license_file_yields_unknown_witness :
  ∃ lic_git lic_tarball,
    kss_scan Sample.env_with_ninka Sample.checkout_plain Sample.manifest
    = Return [lic_git; lic_tarball] ∧
    lic_git !! "moduleName" = Some (PStr "kssutil") ∧
    lic_git !! "moduleLicense" = Some (PStr "Unknown") ∧
    lic_tarball !! "moduleName" = Some (PStr "foo") ∧
    lic_tarball !! "moduleLicense" = Some (PStr "Unknown").
Proof.
  apply (proj2 (no_license_file_yields_unknown Sample.env_with_ninka
                  Sample.checkout_plain)
           "https://github.com/kss/kssutil.git"
           "https://example.com/dl/foo-1.2.3.tar.gz" None Sample.kssutil).
  - reflexivity.
  - vm_compute. discriminate.
  - intros dir [= <-] _. right. eexists. split; [reflexivity|].
    repeat constructor.
  - intros dir [= <-]. vm_compute. discriminate.
  - intros dir [= <-]. reflexivity.
  - intros dir [= <-]. reflexivity.
  - reflexivity.
  - reflexivity.
Defined.

End Unlicensed.

(** ** The walk over the requirements of installed packages *)

Section PipWalk.
Import Pip.

Lemma omem_false_keys {V} (d : odict V) k : omem d k = false ↔ k ∉ okeys d.
Proof.
  unfold omem. rewrite <- oget_None_keys. by destruct (oget d k).
Qed.

Lemma okeys_app {V} (d d' : odict V) : okeys (d ++ d') = okeys d ++ okeys d'.
Proof. unfold okeys. apply map_app. Qed.

Lemma grows_refl rank bound st : grows rank bound st st.
Proof.
  exists []. rewrite !app_nil_r. repeat split; auto.
Qed.

Lemma grows_trans rank bound st1 st2 st3 :
  grows rank bound st1 st2 → grows rank bound st2 st3 → grows rank bound st1 st3.
Proof.
  intros (n1 & Ha1 & Hk1 & Hr1 & Hn1 & Hf1) (n2 & Ha2 & Hk2 & Hr2 & Hn2 & Hf2).
  exists (n1 ++ n2).
  split; [by rewrite Ha2, Ha1, app_assoc|].
  split; [by rewrite Hk2, Hk1, app_assoc|].
  split; [by apply Forall_app|]. split; eauto.
Qed.

Lemma grows_mono rank b b' st st' :
  (b ≤ b')%nat → grows rank b st st' → grows rank b' st st'.
Proof.
  intros Hb (n & Ha & Hk & Hr & Hn & Hf). exists n. repeat split; auto.
  eapply Forall_impl; [exact Hr|]. simpl. intros. lia.
Qed.

(** Assigning a key that is not in the mapping. *)
Lemma grows_assign rank st pip lic :
  omem (lics st) pip = false →
  grows rank (S (rank pip)) st (Walk (oset (lics st) pip lic) (assigned st ++ [pip])).
Proof.
  intros Hfresh. exists [pip]. simpl.
  assert (oget (lics st) pip = None) as Hnone.
  { unfold omem in Hfresh. by destruct (oget (lics st) pip). }
  rewrite (okeys_oset_fresh _ _ _ Hnone), okeys_app. simpl.
  repeat split.
  - repeat constructor.
  - intros Hnd. apply NoDup_app. repeat split; [done | | apply NoDup_singleton].
    intros k Hk. rewrite list_elem_of_singleton. intros ->.
    by apply omem_false_keys in Hfresh.
  - intros k v Hget. rewrite <- (okeys_oset_fresh _ _ _ Hnone).
    rewrite oget_oset_ne; [done|]. intros ->. congruence.
Qed.

Lemma for_each_grows rank bound f xs st res st' :
  (∀ x s r s', x ∈ xs → f x s = Some (r, s') → grows rank bound s s') →
  for_each f xs st = Some (res, st') → grows rank bound st st'.
Proof.
  revert st. induction xs as [|x xs IH]; intros st Hf; simpl.
  - intros [= _ <-]. apply grows_refl.
  - destruct (f x st) as [[[[]|ex] st1]|] eqn:Hx; [| |done].
    + intros Hrest. eapply grows_trans.
      * eapply Hf; [left | exact Hx].
      * apply IH; [|done]. intros ? ? ? ? Hin. apply Hf. by right.
    + intros [= _ <-]. eapply Hf; [left | exact Hx].
Qed.

Lemma for_each_returns f xs st :
  (∀ x s, x ∈ xs → is_Some (f x s)) → is_Some (for_each f xs st).
Proof.
  revert st. induction xs as [|x xs IH]; intros st Hf; simpl; [eauto|].
  destruct (Hf x st) as [[[[]|ex] st1] ->]; [left | | eauto].
  apply IH. intros ? ? Hin. apply Hf. by right.
Qed.

Section Ranked.
Variables (e : Scanner.env) (fs : Dir.files) (w : pips) (rank : string → nat).
Hypothesis Hrank : ∀ p r, r ∈ requires_of w p → (rank r < rank p)%nat.

Lemma add_pip_grows fuel pip used_by st res st' :
  _add_pip_license_for fuel e fs w pip used_by st = Some (res, st') →
  grows rank (S (rank pip)) st st'.
Proof.
  revert pip used_by st res st'.
  induction fuel as [|fuel IH]; intros pip used_by st res st'; simpl; [done|].
  destruct (omem (lics st) pip) eqn:Hmem; [intros [= _ <-]; apply grows_refl|].
  destruct (has_details (pip_show w pip)) eqn:Hd; simpl.
  - destruct (for_each _ _ st) as [[[[]|ex] st1]|] eqn:Hreq; [| |done].
    + assert (grows rank (rank pip) st st1) as Hg1.
      { eapply for_each_grows; [|exact Hreq].
        intros x s r s' Hin Hx. simpl in Hx.
        eapply grows_mono; [|exact (IH _ _ _ _ _ Hx)].
        assert (rank x < rank pip)%nat; [|lia].
        apply Hrank. unfold requires_of. by rewrite Hd. }
      assert (omem (lics st1) pip = false) as Hmem1.
      { apply omem_false_keys. destruct Hg1 as (n & _ & -> & Hr & _ & _).
        apply not_elem_of_app. split; [by apply omem_false_keys|].
        intros Hin. eapply Forall_forall in Hr; [|exact Hin]. simpl in Hr. lia. }
      destruct (pip_license e fs (pip_show w pip)) as [licensetype|ex].
      * match goal with
        | |- context [match ?u with Return _ => _ | Raise _ => _ end] =>
            destruct u as [lic|ex]
        end; intros [= _ <-].
        -- eapply grows_trans; [by eapply grows_mono; [|exact Hg1]; lia|].
           by apply grows_assign.
        -- eapply grows_mono; [|exact Hg1]. lia.
      * intros [= _ <-]. eapply grows_mono; [|exact Hg1]. lia.
    + intros [= _ <-]. eapply grows_mono; [|eapply for_each_grows; [|exact Hreq]].
      * apply Nat.le_succ_diag_r.
      * intros x s r s' Hin Hx. simpl in Hx.
        eapply grows_mono; [|exact (IH _ _ _ _ _ Hx)].
        assert (rank x < rank pip)%nat; [|lia].
        apply Hrank. unfold requires_of. by rewrite Hd.
  - match goal with
    | |- context [match ?u with Return _ => _ | Raise _ => _ end] =>
        destruct u as [lic|ex]
    end; intros [= _ <-]; [by apply grows_assign | apply grows_refl].
Qed.

Lemma add_pip_returns fuel pip used_by st :
  (rank pip < fuel)%nat →
  is_Some (_add_pip_license_for fuel e fs w pip used_by st).
Proof.
  revert pip used_by st.
  induction fuel as [|fuel IH]; intros pip used_by st Hlt; [lia|]. simpl.
  destruct (omem (lics st) pip); [eauto|].
  destruct (has_details (pip_show w pip)) eqn:Hd; simpl.
  - destruct (for_each_returns
                (λ req, _add_pip_license_for fuel e fs w req (Some pip))
                (default [] (Requires (pip_show w pip))) st) as [[[[]|ex] st1] ->].
    + intros x s Hin. apply IH.
      assert (rank x < rank pip)%nat; [|lia].
      apply Hrank. unfold requires_of. by rewrite Hd.
    + destruct (pip_license e fs (pip_show w pip)); [|eauto].
      match goal with
      | |- context [match ?u with Return _ => _ | Raise _ => _ end] =>
          destruct u; eauto
      end.
    + eauto.
  - match goal with
    | |- context [match ?u with Return _ => _ | Raise _ => _ end] =>
        destruct u; eauto
    end.
Qed.

End Ranked.

Lemma pip_license_none e fs d :
  License d = None → pip_license e fs d = Raise AttributeError.
Proof. unfold pip_license. by intros ->. Qed.

(** The entry a first visit stores. *)
Lemma add_pip_first_visit fuel e fs w pip used_by st st' :
  omem (lics st) pip = false →
  _add_pip_license_for fuel e fs w pip used_by st = Some (Return tt, st') →
  ∃ lic, oget (lics st') pip = Some lic ∧
         lic !! "moduleName" = Some (PStr pip) ∧
         lic !! "x-usedBy"
         = match used_by with
           | Some u => if truthy (PStr u) then Some (PList [u]) else None
           | None => None
           end.
Proof.
  destruct fuel as [|fuel]; [done|]. simpl. intros ->.
  set (lic0 := ({["moduleName" := PStr pip]} : dict)).
  assert (∀ (lic : dict) st1,
            lic !! "moduleName" = Some (PStr pip) → lic !! "x-usedBy" = None →
            match
              match used_by with
              | Some u => if truthy (PStr u) then UsedBy.ensure_used_by u lic
                          else Return lic
              | None => Return lic
              end
            with
            | Return lic1 =>
                Some (Return tt, Walk (oset (lics st1) pip lic1) (assigned st1 ++ [pip]))
            | Raise ex => Some (Raise ex, st1)
            end = Some (Return tt, st') →
            ∃ lic1, oget (lics st') pip = Some lic1 ∧
                    lic1 !! "moduleName" = Some (PStr pip) ∧
                    lic1 !! "x-usedBy"
                    = match used_by with
                      | Some u => if truthy (PStr u) then Some (PList [u]) else None
                      | None => None
                      end) as Hstore.
  { intros lic st1 Hname Hnone.
    destruct used_by as [u|]; [destruct (truthy (PStr u))|].
    - rewrite (ensure_used_by_absent u _ Hnone). intros [= <-]. simpl.
      rewrite oget_oset_eq. eexists. split; [done|].
      by rewrite lookup_insert_eq, lookup_insert_ne.
    - intros [= <-]. simpl. rewrite oget_oset_eq. eauto.
    - intros [= <-]. simpl. rewrite oget_oset_eq. eauto. }
  destruct (has_details (pip_show w pip)); simpl.
  - destruct (for_each _ _ st) as [[[[]|ex] st1]|]; [| done..].
    destruct (pip_license e fs (pip_show w pip)) as [licensetype|ex]; [|done].
    apply Hstore; by rewrite !lookup_insert_ne.
  - apply Hstore; by rewrite !lookup_insert_ne.
Qed.

(** X1.  On a [Requires] graph without cycle the walk of
    [_add_pip_license_for] ends, whatever the mapping it starts from.
    Whether it returns or raises, every entry that was in the mapping is
    still there unchanged (a later visit never overwrites an earlier
    one), and every assignment [licenses[pip] = lic] it makes is to a
    name that was not in the mapping, so that no name is assigned twice.
    A first visit that returns stores an entry named after the package
    whose [x-usedBy] is the one name the package was reached from, and
    none for a package of the manifest. *)
Theorem pip_walk_ends_and_first_visit_wins e fs w :
  acyclic w →
  (∀ pip used_by st,
     ∃ fuel res, _add_pip_license_for fuel e fs w pip used_by st = Some res) ∧
  (∀ fuel pip used_by st res st',
     _add_pip_license_for fuel e fs w pip used_by st = Some (res, st') →
     (∀ k lic, oget (lics st) k = Some lic → oget (lics st') k = Some lic) ∧
     (∃ new, assigned st' = assigned st ++ new ∧
             okeys (lics st') = okeys (lics st) ++ new) ∧
     (NoDup (okeys (lics st)) → NoDup (okeys (lics st')))) ∧
  (∀ fuel pip used_by st st',
     omem (lics st) pip = false →
     _add_pip_license_for fuel e fs w pip used_by st = Some (Return tt, st') →
     ∃ lic, oget (lics st') pip = Some lic ∧
            lic !! "moduleName" = Some (PStr pip) ∧
            lic !! "x-usedBy"
            = match used_by with
              | Some u => if truthy (PStr u) then Some (PList [u]) else None
              | None => None
              end).
Proof.
  intros [rank Hrank]. split; [|split].
  - intros pip used_by st. exists (S (rank pip)).
    destruct (add_pip_returns e fs w rank Hrank (S (rank pip)) pip used_by st)
      as [res Hres]; [lia | eauto].
  - intros fuel pip used_by st res st' Hrun.
    destruct (add_pip_grows e fs w rank Hrank _ _ _ _ _ _ Hrun)
      as (new & Ha & Hk & _ & Hnd & Hf).
    eauto.
  - intros. by eapply add_pip_first_visit.
Qed.

Lemma installed_acyclic : acyclic Sample.installed.
Proof.
  exists Sample.installed_rank. intros p r. unfold requires_of. simpl.
  unfold Sample.installed_rank.
  destruct (String.eqb_spec p "kssbuild") as [->|_]; simpl.
  { rewrite elem_of_cons, list_elem_of_singleton. intros [->| ->]; simpl; lia. }
  destruct (String.eqb_spec p "requests") as [->|_]; simpl.
  { rewrite list_elem_of_singleton. intros ->. simpl. lia. }
  destruct (String.eqb_spec p "urllib3") as [->|_]; simpl.
  { intros Hin. by apply elem_of_nil in Hin. }
  intros Hin. by apply elem_of_nil in Hin.
Defined.

(** X1 on the installed packages: the walk from [kssbuild] on an empty
    mapping assigns three distinct names. *)
Lemma pip_walk_ends_and_first_visit_wins_witness :
  NoDup
    (okeys
       (lics
          (default (Return tt, Walk [] [])
             (_add_pip_license_for 3 Sample.env Sample.checkout_plain
                Sample.installed "kssbuild" None (Walk [] []))).2)).
Proof.
  destruct (proj1 (proj2 (pip_walk_ends_and_first_visit_wins Sample.env
              Sample.checkout_plain Sample.installed installed_acyclic))
              3 "kssbuild" None (Walk [] [])
              (default (Return tt, Walk [] [])
                 (_add_pip_license_for 3 Sample.env Sample.checkout_plain
                    Sample.installed "kssbuild" None (Walk [] []))).1
              (default (Return tt, Walk [] [])
                 (_add_pip_license_for 3 Sample.env Sample.checkout_plain
                    Sample.installed "kssbuild" None (Walk [] []))).2)
    as (_ & _ & Hnd).
  - vm_compute. reflexivity.
  - apply Hnd. constructor.
Defined.

End PipWalk.

(** ** Packages without license, and requirement cycles *)

Section PipEdges.
Import Pip.

(** X2.  [_SPDX.search] returns on every string and raises
    [AttributeError] on [None].  A package whose metadata is not empty
    but names no [License] has [None] searched for: its visit never
    returns normally, and when the package requires nothing it raises
    [AttributeError] and assigns nothing.  A package without any
    metadata is stored with the license [Unknown] instead. *)
Theorem pip_package_without_license_raises e fs w :
  (∀ s, ∃ r, SPDX.search (Scanner.spdx e) (PStr s) = Return r) ∧
  SPDX.search (Scanner.spdx e) PNone = Raise AttributeError ∧
  (∀ fuel pip used_by st res st',
     omem (lics st) pip = false →
     has_details (pip_show w pip) = true →
     License (pip_show w pip) = None →
     _add_pip_license_for fuel e fs w pip used_by st = Some (res, st') →
     (∃ ex, res = Raise ex) ∧
     (Requires (pip_show w pip) = None → res = Raise AttributeError ∧ st' = st)) ∧
  (∀ fuel pip st,
     omem (lics st) pip = false →
     has_details (pip_show w pip) = false →
     ∃ lic, _add_pip_license_for (S fuel) e fs w pip None st
            = Some (Return tt, Walk (oset (lics st) pip lic) (assigned st ++ [pip])) ∧
            lic !! "moduleLicense" = Some (PStr "Unknown")).
Proof.
  split; [intros; apply search_str_returns|]. split; [done|]. split.
  - intros fuel pip used_by st res st' Hmem Hd Hlic.
    destruct fuel as [|fuel]; [done|]. simpl. rewrite Hmem, Hd. simpl.
    rewrite (pip_license_none _ _ _ Hlic).
    destruct (Requires (pip_show w pip)) as [requires|]; simpl.
    + destruct (for_each _ requires st) as [[[[]|ex] st1]|]; [| |done];
        intros [= <- <-]; split; eauto; done.
    + intros [= <- <-]. split; eauto.
  - intros fuel pip st Hmem Hd. simpl. rewrite Hmem, Hd. simpl.
    eexists. split; [done|]. by rewrite lookup_insert_eq.
Qed.

(** X2 on a package whose metadata has a name and a version only. *)
Lemma pip_package_without_license_raises_witness :
  ∃ ex, (default (Return tt, Walk [] [])
           (_add_pip_license_for 4 Sample.env Sample.checkout_plain
              Sample.unlicensed_package "left-pad" None (Walk [] []))).1 = Raise ex.
Proof.
  apply (proj1 (proj1 (proj2 (proj2 (pip_package_without_license_raises
                  Sample.env Sample.checkout_plain Sample.unlicensed_package)))
           4 "left-pad" None (Walk [] []) _ _ eq_refl eq_refl eq_refl
           ltac:(vm_compute; reflexivity))).
Defined.



End PipEdges.

(** ** More on the used-by list and the merge *)

Section UsedByMore.
Import UsedBy Scanner.

(** X4.  On an entry whose [x-usedBy] is a list, [ensure_used_by] returns
    and the new list holds the given name and exactly the names it held
    before; an entry that already names the module is returned as it is,
    otherwise the list is one longer.  No other field changes. *)
Theorem ensure_used_by_adds_the_name modulename (lic : dict) l :
  lic !! "x-usedBy" = Some (PList l) →
  ∃ l', ensure_used_by modulename lic = Return (<["x-usedBy" := PList l']> lic) ∧
        (∀ x, x ∈ l' ↔ x = modulename ∨ x ∈ l) ∧
        (modulename ∈ l → l' = l) ∧
        (modulename ∉ l → l' ≡ₚ modulename :: l).
Proof.
  intros Hl. unfold ensure_used_by. rewrite Hl.
  destruct (decide (modulename ∈ l)) as [Hin|Hnin].
  - exists l. rewrite insert_id by done. split; [done|].
    split; [|done]. intros x. split; [by right | by intros [->|?]].
  - exists (insort l modulename). split; [done|]. split; [|split; [done|]].
    + intros x. by rewrite insort_Permutation, elem_of_cons.
    + intros _. apply insort_Permutation.
Qed.

(** X4 on the hand-edited entry, used by one more module. *)
Lemma ensure_used_by_adds_the_name_witness :
  ∃ l', ensure_used_by "app" Sample.zlib
        = Return (<["x-usedBy" := PList l']> Sample.zlib) ∧
        (∀ x, x ∈ l' ↔ x = "app" ∨ x ∈ ["kssio"]) ∧
        ("app" ∈ ["kssio"] → l' = ["kssio"]) ∧
        ("app" ∉ ["kssio"] → l' ≡ₚ "app" :: ["kssio"]).
Proof.
  apply (ensure_used_by_adds_the_name "app" Sample.zlib ["kssio"]).
  reflexivity.
Defined.






End UsedByMore.

(** ** A new entry whose license text the SPDX table knows *)

Section LocalResolution.
Import UsedBy Scanner.

(** X6.  An incoming entry whose module name is not in the mapping and
    whose [moduleLicense] the SPDX table resolves is stored under its
    module name without any remote lookup: the adapter is left as it
    was.  The stored entry has the table's name, id and approval flag,
    the used-by list it came with, or the scanning module alone if it
    came with none, and every other field as reported. *)
Theorem resolved_entry_is_stored_without_lookup e m (lic : dict) st key text en :
  module_name lic = Return key →
  oget (licenses st) key = None →
  lic !! "moduleLicense" = Some text →
  SPDX.search (spdx e) text = Return (Some en) →
  ∃ stored,
    adjust_and_add e m lic st
    = (Return tt, St (oset (licenses st) key stored) (github st)) ∧
    stored !! "moduleLicense" = Some (PStr (SPDX.name en)) ∧
    stored !! "x-spdxId" = Some (PStr (SPDX.licenseId en)) ∧
    stored !! "x-isOsiApproved" = Some (PBool (SPDX.isOsiApproved en)) ∧
    stored !! "x-usedBy" = Some (default (PList [m]) (lic !! "x-usedBy")) ∧
    ∀ f, f ≠ "moduleLicense" → f ≠ "x-spdxId" → f ≠ "x-isOsiApproved" →
         f ≠ "x-usedBy" → stored !! f = lic !! f.
Proof.
  intros Hkey Hnone Htext Hsearch. unfold adjust_and_add.
  rewrite Hkey, Hnone. unfold _should_add_to_used_by.
  assert (∀ lic1 : dict,
            lic1 !! "moduleLicense" = Some text →
            getitem lic1 "moduleLicense" ≫= SPDX.search (spdx e)
            = Return (Some en)) as Hfound.
  { intros lic1 H1. unfold getitem. by rewrite H1. }
  destruct (lic !! "x-usedBy") as [v|] eqn:Hu.
  - rewrite (Hfound lic Htext). eexists. split; [done|].
    unfold SPDX.set_into_license.
    repeat split; try by rewrite ?lookup_insert_ne, ?lookup_insert_eq by done.
    intros f ? ? ? ?. by rewrite !lookup_insert_ne.
  - rewrite (ensure_used_by_absent _ _ Hu).
    rewrite (Hfound (<["x-usedBy" := PList [m]]> lic));
      [|by rewrite lookup_insert_ne].
    eexists. split; [done|]. unfold SPDX.set_into_license.
    repeat split; try by rewrite ?lookup_insert_ne, ?lookup_insert_eq by done.
    intros f ? ? ? ?. by rewrite !lookup_insert_ne.
Qed.

(** X6 on the hand-edited entry and the empty mapping. *)
Lemma resolved_entry_is_stored_without_lookup_witness :
  ∃ stored,
    adjust_and_add Sample.env "app" Sample.zlib init
    = (Return tt, St (oset (licenses init) "zlib" stored) (github init)) ∧
    stored !! "moduleLicense" = Some (PStr (SPDX.name Sample.mit)) ∧
    stored !! "x-spdxId" = Some (PStr (SPDX.licenseId Sample.mit)) ∧
    stored !! "x-isOsiApproved" = Some (PBool (SPDX.isOsiApproved Sample.mit)) ∧
    stored !! "x-usedBy" = Some (default (PList ["app"]) (Sample.zlib !! "x-usedBy")) ∧
    ∀ f, f ≠ "moduleLicense" → f ≠ "x-spdxId" → f ≠ "x-isOsiApproved" →
         f ≠ "x-usedBy" → stored !! f = Sample.zlib !! f.
Proof.
  apply (resolved_entry_is_stored_without_lookup Sample.env "app" Sample.zlib
           init "zlib" (PStr "MIT") Sample.mit).
  - reflexivity.
  - reflexivity.
  - reflexivity.
  - vm_compute. reflexivity.
Defined.

End LocalResolution.

(** ** The budget and the cache of the remote adapter *)

Section Budget.
Import GitHub.

(** What a call may do to the adapter when the budget is known: some
    requests are logged and as many calls are taken from the budget. *)
Lemma get_logs n url st r st' :
  truthy (PStr url) = true → _get n url st = (r, st') → st' = log_request st url.
Proof.
  unfold _get. intros ->. simpl.
  destruct (requests_get n (requested st) url) as [resp|ex]; [|by intros [= _ <-]].
  destruct (negb _); [by intros [= _ <-]|].
  destruct (negb _); by intros [= _ <-].
Qed.

Lemma try_api_budget n key organization st o st' :
  (0 ≤ _remaining_calls st)%Z →
  _try_api n key organization st = (o, st') →
  ∃ new, requested st' = requested st ++ new ∧
         _remaining_calls st' = (_remaining_calls st - Z.of_nat (length new))%Z ∧
         (length new ≤ 1)%nat ∧ _cached st' = _cached st.
Proof.
  intros Hpos. unfold _try_api, _can_call_github.
  destruct (Z.eqb_spec (_remaining_calls st) (-1)) as [Heq|_]; [lia|].
  destruct (Z.gtb_spec (_remaining_calls st) 0) as [Hgt|Hle].
  - set (st1 := set_remaining st (_remaining_calls st - 1)).
    destruct (_get n _ st1) as [r st2] eqn:Hget.
    apply get_logs in Hget as ->; [|reflexivity].
    intros Hres. assert (st' = log_request st1
      ("https://api.github.com/" ++ key ++ "/" ++ organization ++ "/repos")) as ->.
    { by destruct r; injection Hres as _ <-. }
    eexists [_]. simpl. split; [done|]. split; [lia|]. split; [lia | done].
  - intros [= _ <-]. exists []. rewrite app_nil_r. simpl.
    split; [done|]. split; [lia|]. split; [lia | done].
Qed.

(** X7.  Once the budget is known (not the initial -1), a lookup logs as
    many requests as it takes calls from the budget, at most two (the
    [orgs] listing, then the [users] listing), and the budget never goes
    below zero. *)
Theorem lookup_spends_what_it_requests n url st r st' :
  (0 ≤ _remaining_calls st)%Z →
  lookup n url st = (r, st') →
  ∃ new, requested st' = requested st ++ new ∧
         _remaining_calls st' = (_remaining_calls st - Z.of_nat (length new))%Z ∧
         (0 ≤ _remaining_calls st')%Z ∧
         (length new ≤ 2)%nat.
Proof.
  intros Hpos. unfold lookup.
  assert (∃ new, requested st = requested st ++ new ∧
                 _remaining_calls st
                 = (_remaining_calls st - Z.of_nat (length new))%Z ∧
                 (0 ≤ _remaining_calls st)%Z ∧ (length new ≤ 2)%nat) as Hsame.
  { exists []. rewrite app_nil_r. simpl.
    split; [done|]. split; [lia|]. split; [done | lia]. }
  destruct (_parse_url n url) as [[[host organization] [project|]]|];
    [| by intros [= _ <-]..].
  destruct (_cached st !! _); [by intros [= _ <-]|].
  destruct (decide (host = Some "github.com")); [|by intros [= _ <-]].
  destruct (_try_api n "orgs" _ st) as [o1 st1] eqn:H1.
  destruct (try_api_budget _ _ _ _ _ _ Hpos H1) as (n1 & Hr1 & Hb1 & Hl1 & _).
  assert (0 ≤ _remaining_calls st1)%Z as Hpos1.
  { revert H1. unfold _try_api, _can_call_github.
    destruct (Z.eqb_spec (_remaining_calls st) (-1)) as [Heq|_]; [lia|].
    destruct (Z.gtb_spec (_remaining_calls st) 0) as [Hgt|Hle].
    - destruct (_get n _ _) as [r0 st2] eqn:Hget.
      apply get_logs in Hget as ->; [|reflexivity].
      destruct r0; intros [= _ <-]; simpl; lia.
    - by intros [= _ <-]. }
  destruct o1 as [b|].
  - intros [= _ <-]. exists n1. simpl.
    split; [done|]. split; [done|]. split; [done | lia].
  - destruct (_try_api n "users" _ st1) as [o2 st2] eqn:H2.
    destruct (try_api_budget _ _ _ _ _ _ Hpos1 H2) as (n2 & Hr2 & Hb2 & Hl2 & _).
    assert (0 ≤ _remaining_calls st2)%Z as Hpos2.
    { revert H2. unfold _try_api, _can_call_github.
      destruct (Z.eqb_spec (_remaining_calls st1) (-1)) as [Heq|_]; [lia|].
      destruct (Z.gtb_spec (_remaining_calls st1) 0) as [Hgt|Hle].
      - destruct (_get n _ _) as [r0 st3] eqn:Hget.
        apply get_logs in Hget as ->; [|reflexivity].
        destruct r0; intros [= _ <-]; simpl; lia.
      - by intros [= _ <-]. }
    assert (requested st2 = requested st ++ (n1 ++ n2)) as Hr
      by (by rewrite Hr2, Hr1, app_assoc).
    assert (_remaining_calls st2
            = (_remaining_calls st - Z.of_nat (length (n1 ++ n2)))%Z) as Hb
      by (rewrite length_app; lia).
    assert (length (n1 ++ n2) ≤ 2)%nat as Hl by (rewrite length_app; lia).
    destruct o2 as [b|]; intros [= _ <-]; exists (n1 ++ n2); simpl; done.
Qed.

(** X7 on an adapter with a budget of one call and no network. *)
Lemma lookup_spends_what_it_requests_witness :
  ∃ new,
    requested (lookup Sample.offline (PStr "https://github.com/kss/pyutil")
                 (State ∅ 1 [])).2
    = requested (State ∅ 1 []) ++ new ∧
    _remaining_calls (lookup Sample.offline (PStr "https://github.com/kss/pyutil")
                        (State ∅ 1 [])).2
    = (_remaining_calls (State ∅ 1 []) - Z.of_nat (length new))%Z ∧
    (0 ≤ _remaining_calls (lookup Sample.offline
                             (PStr "https://github.com/kss/pyutil")
                             (State ∅ 1 [])).2)%Z ∧
    (length new ≤ 2)%nat.
Proof.
  apply (lookup_spends_what_it_requests Sample.offline
           (PStr "https://github.com/kss/pyutil") (State ∅ 1 []) _ _
           ltac:(simpl; lia) (surjective_pairing _)).
Defined.

End Budget.

Section Cache.
Import GitHub.

Lemma try_api_cached n key organization st o st' :
  _try_api n key organization st = (o, st') → _cached st' = _cached st.
Proof.
  unfold _try_api, _can_call_github.
  assert (∀ url s r s', _get n url s = (r, s') → _cached s' = _cached s) as Hget.
  { intros url s r s'. unfold _get. destruct (negb _); [by intros [= _ <-]|].
    destruct (requests_get n _ url); [|by intros [= _ <-]].
    destruct (negb _); [by intros [= _ <-]|].
    destruct (negb _); by intros [= _ <-]. }
  destruct (_remaining_calls st =? -1)%Z.
  - destruct (_get n _ st) as [[b|ex] st1] eqn:H1; apply Hget in H1.
    + destruct (rate_remaining b) as [r|ex]; simpl.
      * destruct (r >? 0)%Z; [|intros [= _ <-]; by rewrite <- H1].
        destruct (_get n _ _) as [[b'|ex'] st2] eqn:H2; apply Hget in H2;
          intros [= _ <-]; by rewrite H2, <- H1.
      * intros [= _ <-]. by rewrite <- H1.
    + intros [= _ <-]. by rewrite <- H1.
  - destruct (_remaining_calls st >? 0)%Z; [|by intros [= _ <-]].
    destruct (_get n _ _) as [[b'|ex'] st2] eqn:H2; apply Hget in H2;
      by intros [= _ <-].
Qed.

(** X8.  A lookup of an organization that is in the cache answers from
    the cached listing and leaves the adapter as it was: nothing is
    requested and no call is taken from the budget, whatever the budget.
    And no lookup ever drops or replaces a cached listing. *)
Theorem cached_organization_needs_no_network n st :
  (∀ url host organization project projects r st',
     _parse_url n url = Return (host, Some organization, Some project) →
     _cached st !! organization = Some projects →
     lookup n url st = (r, st') →
     st' = st ∧
     r = _license_from_entry projects
           (if endswith project ".git" then drop_back 4 project else project)) ∧
  (∀ url organization projects r st',
     _cached st !! organization = Some projects →
     lookup n url st = (r, st') →
     _cached st' !! organization = Some projects).
Proof.
  split.
  - intros url host organization project projects r st' Hparse Hc.
    unfold lookup. rewrite Hparse. simpl. rewrite Hc. by intros [= <- <-].
  - intros url organization projects r st' Hc. unfold lookup.
    destruct (_parse_url n url) as [[[host org] [project|]]|];
      [| by intros [= _ <-]..].
    destruct (_cached st !! default EmptyString org) eqn:Horg;
      [by intros [= _ <-]|].
    destruct (decide (host = Some "github.com")); [|by intros [= _ <-]].
    destruct (_try_api n "orgs" _ st) as [o1 st1] eqn:H1.
    apply try_api_cached in H1.
    assert (∀ b s, _cached s = _cached st →
              _cached (set_cached s (default EmptyString org) b) !! organization
              = Some projects) as Hset.
    { intros b s Hs. simpl. rewrite Hs, lookup_insert_ne; [done|].
      intros <-. congruence. }
    destruct o1 as [b|]; [intros [= _ <-]; by apply Hset|].
    destruct (_try_api n "users" _ st1) as [o2 st2] eqn:H2.
    apply try_api_cached in H2.
    destruct o2 as [b|]; intros [= _ <-].
    + apply Hset. congruence.
    + congruence.
Qed.

(** X8 on the adapter after its first lookup of [kss]. *)
Lemma cached_organization_needs_no_network_witness :
  (lookup Sample.one_call (PStr "https://github.com/kss/pyutil.git")
     (lookup Sample.one_call (PStr "https://github.com/kss/pyutil.git") init).2).2
  = (lookup Sample.one_call (PStr "https://github.com/kss/pyutil.git") init).2.
Proof.
  refine (proj1 (proj1 (cached_organization_needs_no_network Sample.one_call
                          (lookup Sample.one_call
                             (PStr "https://github.com/kss/pyutil.git") init).2)
                   (PStr "https://github.com/kss/pyutil.git")
                   (Some "github.com") "kss" "pyutil.git"
                   (ReposBody [Project (Some "pyutil") (LicenseObject (Some "MIT"))])
                   _ _ _ _ (surjective_pairing _))).
  - vm_compute. reflexivity.
  - vm_compute. reflexivity.
Defined.

End Cache.
